(** * side-quest-x-api: includes merge, error classification, request retry
      and thread reconstruction

    A shallow embedding of [types.ts], [includes.ts], [client.ts] and
    [thread.ts].  JavaScript strings are [string], numbers that the code only
    uses as integers are [Z], optional properties are [option], a
    [Map<string, V>] is a [gmap string V] and a [Set<string>] is a
    [gset string]. *)

From stdpp Require Import gmap strings pretty list sorting.
From Stdlib Require Import ZArith Lia.

Local Open Scope Z_scope.

Set Default Proof Using "Type".

(** ** JavaScript truthiness of the values the code tests *)

(** [if (s)] for an optional string: [undefined] and the empty string are
    falsy. *)
Definition truthy (s : option string) : bool :=
  match s with
  | Some s => negb (String.eqb s "")
  | None => false
  end.

(** ** Data model ([types.ts]) *)

Inductive ReferenceType := retweeted | quoted | replied_to.

Module ReferencedTweet.
Record t := { type : ReferenceType; id : string }.
End ReferencedTweet.

Module TweetPublicMetrics.
Record t := {
  retweet_count : Z;
  reply_count : Z;
  like_count : Z;
  quote_count : Z;
  bookmark_count : option Z;
  impression_count : option Z
}.
End TweetPublicMetrics.

Module Tweet.
Record t := {
  id : string;
  text : string;
  author_id : option string;
  conversation_id : option string;
  created_at : option string;
  in_reply_to_user_id : option string;
  referenced_tweets : option (list ReferencedTweet.t);
  public_metrics : option TweetPublicMetrics.t
}.
End Tweet.

Module UserPublicMetrics.
Record t := {
  followers_count : Z;
  following_count : Z;
  tweet_count : Z;
  listed_count : Z
}.
End UserPublicMetrics.

Module User.
Record t := {
  id : string;
  name : string;
  username : string;
  description : option string;
  created_at : option string;
  profile_image_url : option string;
  verified : option bool;
  public_metrics : option UserPublicMetrics.t
}.
End User.

Module TwitterIncludes.
Record t := {
  users : option (list User.t);
  tweets : option (list Tweet.t)
}.
End TwitterIncludes.

Module TwitterV2Response.
Record t (T : Type) := {
  data : T;
  includes : option TwitterIncludes.t
}.
Arguments data {T}.
Arguments includes {T}.
End TwitterV2Response.

Module TwitterMeta.
Record t := {
  result_count : Z;
  newest_id : option string;
  oldest_id : option string;
  next_token : option string
}.
End TwitterMeta.

Module TwitterV2ListResponse.
Record t (T : Type) := {
  data : option (list T);
  includes : option TwitterIncludes.t;
  meta : option TwitterMeta.t
}.
Arguments data {T}.
Arguments includes {T}.
Arguments meta {T}.
End TwitterV2ListResponse.

(** [EnrichedTweet extends Tweet]: every property of a tweet, plus the two
    resolved ones. *)
Module EnrichedTweet.
Record t := {
  id : string;
  text : string;
  author_id : option string;
  conversation_id : option string;
  created_at : option string;
  in_reply_to_user_id : option string;
  referenced_tweets : option (list ReferencedTweet.t);
  public_metrics : option TweetPublicMetrics.t;
  author : option User.t;
  referenced_tweet_data : option Tweet.t
}.

(** An enriched tweet read at its supertype. *)
Definition as_Tweet (e : t) : Tweet.t :=
  {| Tweet.id := id e;
     Tweet.text := text e;
     Tweet.author_id := author_id e;
     Tweet.conversation_id := conversation_id e;
     Tweet.created_at := created_at e;
     Tweet.in_reply_to_user_id := in_reply_to_user_id e;
     Tweet.referenced_tweets := referenced_tweets e;
     Tweet.public_metrics := public_metrics e |}.
End EnrichedTweet.

Module ThreadResult.
Record t := {
  tweets : list EnrichedTweet.t;
  ageWarning : option string
}.
End ThreadResult.

Module RepliesResult.
Record t := {
  originalTweet : EnrichedTweet.t;
  replies : list EnrichedTweet.t;
  resultCount : Z
}.
End RepliesResult.

(** ** Includes merge ([includes.ts]) *)

(** [new Map(entries)]: no argument gives the empty map; otherwise the
    entries are [set] from first to last, so a later entry replaces an
    earlier one with the same key. *)
Definition Map_new {V} (entries : option (list (string * V))) : gmap string V :=
  match entries with
  | None => ∅
  | Some kvs => foldl (λ m kv, <[kv.1 := kv.2]> m) ∅ kvs
  end.

Definition buildMaps (includes : option TwitterIncludes.t)
    : gmap string User.t * gmap string Tweet.t :=
  let userMap :=
    Map_new ((λ users : list User.t, (λ u, (User.id u, u)) <$> users)
               <$> (includes ≫= TwitterIncludes.users)) in
  let tweetMap :=
    Map_new ((λ tweets : list Tweet.t, (λ t, (Tweet.id t, t)) <$> tweets)
               <$> (includes ≫= TwitterIncludes.tweets)) in
  (userMap, tweetMap).

Definition enrichTweet (tweet : Tweet.t)
    (userMap : gmap string User.t) (tweetMap : gmap string Tweet.t)
    : EnrichedTweet.t :=
  {| EnrichedTweet.id := Tweet.id tweet;
     EnrichedTweet.text := Tweet.text tweet;
     EnrichedTweet.author_id := Tweet.author_id tweet;
     EnrichedTweet.conversation_id := Tweet.conversation_id tweet;
     EnrichedTweet.created_at := Tweet.created_at tweet;
     EnrichedTweet.in_reply_to_user_id := Tweet.in_reply_to_user_id tweet;
     EnrichedTweet.referenced_tweets := Tweet.referenced_tweets tweet;
     EnrichedTweet.public_metrics := Tweet.public_metrics tweet;
     EnrichedTweet.author :=
       if truthy (Tweet.author_id tweet)
       then Tweet.author_id tweet ≫= (λ a, userMap !! a)
       else None;
     EnrichedTweet.referenced_tweet_data :=
       match Tweet.referenced_tweets tweet ≫= head with
       | Some r => tweetMap !! ReferencedTweet.id r
       | None => None
       end |}.

Definition mergeSingleTweet (response : TwitterV2Response.t Tweet.t)
    : EnrichedTweet.t :=
  let '(userMap, tweetMap) := buildMaps (TwitterV2Response.includes response) in
  enrichTweet (TwitterV2Response.data response) userMap tweetMap.

Definition mergeTweetList (response : TwitterV2ListResponse.t Tweet.t)
    : list EnrichedTweet.t :=
  match TwitterV2ListResponse.data response with
  | None => []
  | Some data =>
      let '(userMap, tweetMap) := buildMaps (TwitterV2ListResponse.includes response) in
      (λ tweet, enrichTweet tweet userMap tweetMap) <$> data
  end.

(** ** Errors and completions *)

Inductive Category := transient | permanent | configuration.

Module TwitterApiError.
Record t := {
  message : string;
  status : Z;
  category : Category
}.
End TwitterApiError.

(** The values the code throws or sees thrown: the [TimeoutError] of
    [withTimeout], the client's own [TwitterApiError], and every other
    [Error] (a rejected fetch, a [SyntaxError] of [JSON.parse], ...). *)
Inductive JsError :=
| TimeoutError (message : string)
| ApiError (e : TwitterApiError.t)
| OtherError (name message : string).

(** An evaluation either returns a value or throws. *)
Inductive Try (A : Type) :=
| Return (a : A)
| Throw (e : JsError).
Arguments Return {A}.
Arguments Throw {A}.

(** ** JSON values, as [JSON.parse] builds them *)

#[local] Unset Elimination Schemes.
Inductive json :=
| JNull
| JBool (b : bool)
| JNumber (numeral : string)
| JString (s : string)
| JArray (items : list json)
| JObject (props : list (string * json)).
#[local] Set Elimination Schemes.

(** Own property [k] of an object whose properties are [props]. *)
Fixpoint own_property (k : string) (props : list (string * json)) : option json :=
  match props with
  | [] => None
  | (k', v) :: props' => if String.eqb k' k then Some v else own_property k props'
  end.

(** [v?.k] for a property name [k] that no prototype defines ([detail],
    [errors], [message]): [undefined] is [None]. *)
Definition prop (k : string) (v : option json) : option json :=
  match v with
  | Some (JObject props) => own_property k props
  | _ => None
  end.

(** [v?.[0]]. *)
Definition index0 (v : option json) : option json :=
  match v with
  | Some (JArray items) => head items
  | Some (JObject props) => own_property "0" props
  | Some (JString (String c _)) => Some (JString (String c ""))
  | _ => None
  end.

(** [a ?? b] keeps [a] unless it is [null] or [undefined]. *)
Definition nullish (v : option json) : bool :=
  match v with
  | None | Some JNull => true
  | Some _ => false
  end.

Definition coalesce (a b : option json) : option json :=
  if nullish a then b else a.

(** ** [Array.prototype.sort] *)

Section ArraySort.
Context {A : Type}.
(** The comparator's result; [None] is [NaN]. *)
Variable comparefn : A → A → option Z.

(** [SortCompare(x, y)]: a [NaN] from the comparator counts as [+0]. *)
Definition sortCompare (x y : A) : Z := default 0 (comparefn x y).

(** [SortCompare(x, y) < 0]: a [NaN] from the comparator counts as [+0]. *)
Definition sorts_before (x y : A) : bool :=
  match comparefn x y with
  | Some v => v <? 0
  | None => false
  end.

(** ECMAScript's consistent comparator for the values of [l]: the
    comparator never returns [NaN], comparing a value with itself gives 0,
    comparing equal is symmetric and transitive, and so are comparing less
    and comparing greater transitive. *)
Definition consistentComparator (l : list A) : Prop :=
  (∀ a b, a ∈ l → b ∈ l → is_Some (comparefn a b))
  ∧ (∀ a, a ∈ l → sortCompare a a = 0)
  ∧ (∀ a b, a ∈ l → b ∈ l → sortCompare a b = 0 → sortCompare b a = 0)
  ∧ (∀ a b c, a ∈ l → b ∈ l → c ∈ l →
       sortCompare a b = 0 → sortCompare b c = 0 → sortCompare a c = 0)
  ∧ (∀ a b c, a ∈ l → b ∈ l → c ∈ l →
       sortCompare a b < 0 → sortCompare b c < 0 → sortCompare a c < 0)
  ∧ (∀ a b c, a ∈ l → b ∈ l → c ∈ l →
       sortCompare a b > 0 → sortCompare b c > 0 → sortCompare a c > 0).

(** The arrangement that ECMAScript prescribes for a consistent comparator:
    an element that compares less than another comes before it, and
    elements that compare equal stay in their original order.  Stable
    insertion computes it: an element moves in front of exactly the later
    elements that it [sorts_before]. *)
Fixpoint stable_insert (x : A) (l : list A) : list A :=
  match l with
  | [] => [x]
  | y :: l' => if sorts_before y x then y :: stable_insert x l' else x :: l
  end.

Fixpoint stableSort (l : list A) : list A :=
  match l with
  | [] => []
  | x :: l' => stable_insert x (stableSort l')
  end.

Lemma stable_insert_Permutation x l : stable_insert x l ≡ₚ x :: l.
Proof.
  induction l as [|y l IH]; simpl; [done|].
  destruct (sorts_before y x); [|done].
  by rewrite IH, Permutation_swap.
Qed.

Lemma stableSort_Permutation l : stableSort l ≡ₚ l.
Proof.
  induction l as [|x l IH]; simpl; [done|].
  by rewrite stable_insert_Permutation, IH.
Qed.
End ArraySort.

(** ** What the code calls and the repository does not define *)

(** The builtins of the JavaScript runtime and the imported functions that
    the code calls: [JSON.parse], where [Throw] is its [SyntaxError]; the
    string a template literal interpolates for a value that is not a string;
    [getErrorCategory] of [@side-quest/core/instrumentation];
    [new Date(s).getTime()], where [None] is the [NaN] of an invalid date;
    and [Array.prototype.sort], whose algorithm ECMAScript leaves to the
    engine: the result is a rearrangement of the array, and for a comparator
    that is consistent for the values of the array it is the arrangement
    [stableSort]; for any other comparator the order is the engine's own. *)
Class Runtime := {
  JSON_parse : string → Try json;
  ToString_nonstring : json → string;
  getErrorCategory : JsError → string;
  Date_getTime : string → option Z;
  Array_sort : ∀ A : Type, (A → A → option Z) → list A → list A;
  sort_rearranges :
    ∀ (A : Type) (comparefn : A → A → option Z) (l : list A),
      Array_sort A comparefn l ≡ₚ l;
  sort_consistent :
    ∀ (A : Type) (comparefn : A → A → option Z) (l : list A),
      consistentComparator comparefn l →
      Array_sort A comparefn l = stableSort comparefn l
}.
Arguments Array_sort {_} {A} _ _.

(** ** The client ([client.ts]) *)

Module Response.
Record t := {
  status : Z;
  body : string
}.
(** [response.ok]: the status is in the range 200-299. *)
Definition ok (r : t) : bool := (200 <=? status r) && (status r <=? 299).
End Response.

(** What one call of the transport under [withTimeout] comes to. *)
Inductive FetchOutcome :=
| TimedOut
| Rejected (e : JsError)
| Responded (r : Response.t).

Module RetryOptions.
Record t := {
  maxAttempts : nat;
  initialDelay : Z;
  shouldRetry : JsError → bool
}.
End RetryOptions.

(** Modelled from the spec: [retry] of the package [@side-quest/core/utils],
    which the client imports and whose source is not part of this
    repository.  The operation is attempted up to [maxAttempts] times in
    all; a failed attempt is followed by another one only when [shouldRetry]
    accepts its error and attempts remain; the first success is the result;
    a failure that is not retried, or the failure of the last attempt, is
    thrown to the caller.  [fn k] is what the [k]-th invocation of the
    operation comes to; the second component counts the invocations made.
    Delays between attempts are not modelled. *)
Fixpoint retry_from {A} (fn : nat → Try A) (shouldRetry : JsError → bool)
    (remaining : nat) (k : nat) : Try A * nat :=
  match fn k with
  | Return a => (Return a, S k)
  | Throw e =>
      match remaining with
      | O => (Throw e, S k)
      | S remaining' =>
          if shouldRetry e
          then retry_from fn shouldRetry remaining' (S k)
          else (Throw e, S k)
      end
  end.

Definition retry {A} (fn : nat → Try A) (options : RetryOptions.t) : Try A * nat :=
  retry_from fn (RetryOptions.shouldRetry options)
             (Nat.pred (RetryOptions.maxAttempts options)) 0%nat.

Section Client.
Context {rt : Runtime}.

Definition ToString (v : json) : string :=
  match v with
  | JString s => s
  | _ => ToString_nonstring v
  end.

(** [parsed?.detail ?? parsed?.errors?.[0]?.message], [None] when both are
    nullish. *)
Definition structured_detail (parsed : json) : option json :=
  coalesce (prop "detail" (Some parsed))
           (coalesce (prop "message" (index0 (prop "errors" (Some parsed)))) None).

Definition error_detail (body : string) : string :=
  match JSON_parse body with
  | Return parsed =>
      match structured_detail parsed with
      | Some v => ToString v
      | None => body
      end
  | Throw _ => body
  end.

Definition parseTwitterError (status : Z) (body : string) : TwitterApiError.t :=
  let detail := error_detail body in
  if status =? 429 then
    {| TwitterApiError.message := "Rate limited: " +:+ detail;
       TwitterApiError.status := status;
       TwitterApiError.category := transient |}
  else if status =? 401 then
    {| TwitterApiError.message := "Auth failed: " +:+ detail;
       TwitterApiError.status := status;
       TwitterApiError.category := configuration |}
  else if status =? 403 then
    {| TwitterApiError.message := "Forbidden: " +:+ detail +:+ " (check API tier)";
       TwitterApiError.status := status;
       TwitterApiError.category := configuration |}
  else if status =? 404 then
    {| TwitterApiError.message := "Not found: " +:+ detail;
       TwitterApiError.status := status;
       TwitterApiError.category := permanent |}
  else if 500 <=? status then
    {| TwitterApiError.message :=
         "Server error " +:+ pretty status +:+ ": " +:+ detail;
       TwitterApiError.status := status;
       TwitterApiError.category := transient |}
  else
    {| TwitterApiError.message :=
         "API error " +:+ pretty status +:+ ": " +:+ detail;
       TwitterApiError.status := status;
       TwitterApiError.category := permanent |}.

(** The [shouldRetry] callback of [request]. *)
Definition shouldRetry (error : JsError) : bool :=
  match error with
  | TimeoutError _ => true
  | ApiError e =>
      match TwitterApiError.category e with
      | transient => true
      | _ => false
      end
  | OtherError _ _ => String.eqb (getErrorCategory error) "transient"
  end.

(** The operation [request] hands to [retry], given what the transport
    call comes to.  The rate-limit warning is a log line only and is left
    out. *)
Definition attempt (endpoint : string) (outcome : FetchOutcome) : Try json :=
  match outcome with
  | TimedOut => Throw (TimeoutError ("Twitter API timeout: " +:+ endpoint))
  | Rejected e => Throw e
  | Responded response =>
      if Response.ok response
      then JSON_parse (Response.body response)
      else Throw (ApiError (parseTwitterError (Response.status response)
                                              (Response.body response)))
  end.

(** [request]: [fetchFn k] is what the [k]-th call of the transport comes
    to.  The result comes with the number of transport calls made.  The URL
    and the bearer header only reach the transport and are left out. *)
Definition request (fetchFn : nat → FetchOutcome) (endpoint : string)
    : Try json * nat :=
  retry (λ k, attempt endpoint (fetchFn k))
        {| RetryOptions.maxAttempts := 3;
           RetryOptions.initialDelay := 1000;
           RetryOptions.shouldRetry := shouldRetry |}.
End Client.

(** ** Requests, and runs against a scripted transport *)

(** [URLSearchParams] with every key set at most once. *)
Abbreviation Params := (gmap string string).

(** An endpoint and its query parameters. *)
Abbreviation Request := (string * gmap string string)%type.

(** A run of an operation whose responses are given as a finite script:
    it returns, it rejects with the error of a request, or it is left
    waiting for a response the script does not hold. *)
Inductive Run (A : Type) :=
| Done (a : A)
| Failed (e : JsError)
| Awaiting.
Arguments Done {A}.
Arguments Failed {A}.
Arguments Awaiting {A}.

(** ** Thread reconstruction ([thread.ts]) *)

Module ThreadFieldParams.
Record t := {
  tweetFields : string;
  expansions : string;
  userFields : string
}.
End ThreadFieldParams.

Definition SEVEN_DAYS_MS : Z := 7 * 24 * 60 * 60 * 1000.
Definition MAX_THREAD_TWEETS : Z := 200.

Definition AGE_WARNING : string :=
  "Warning: Tweet is older than 7 days. Search API only returns recent replies.".

(** The variables of the pagination loop. *)
Module Loop.
Record t := {
  allTweets : list EnrichedTweet.t;
  seenIds : gset string;
  nextToken : option string;
  fetched : Z
}.
End Loop.

(** [conversation_id ?? id]. *)
Definition conversationIdOf (tweet : Tweet.t) : string :=
  match Tweet.conversation_id tweet with
  | Some c => c
  | None => Tweet.id tweet
  end.

Definition rootRequest (tweetId : string) (fields : ThreadFieldParams.t) : Request :=
  ("/tweets/" +:+ tweetId,
   list_to_map [("tweet.fields", ThreadFieldParams.tweetFields fields);
                ("expansions", ThreadFieldParams.expansions fields);
                ("user.fields", ThreadFieldParams.userFields fields)]).

(** The parameters of the search request the loop sends in state [st]. *)
Definition searchParams (conversationId : string) (fields : ThreadFieldParams.t)
    (cap : Z) (st : Loop.t) : Params :=
  let pageSize := Z.min 100 (cap - Loop.fetched st) in
  let params : Params :=
    list_to_map [("query", "conversation_id:" +:+ conversationId);
                 ("max_results", pretty (Z.max pageSize 10));
                 ("tweet.fields", ThreadFieldParams.tweetFields fields);
                 ("expansions", ThreadFieldParams.expansions fields);
                 ("user.fields", ThreadFieldParams.userFields fields)] in
  match Loop.nextToken st with
  | Some token => if truthy (Some token) then <["next_token" := token]> params else params
  | None => params
  end.

(** The body of [for (const tweet of enriched)]. *)
Definition addUnseen (st : Loop.t) (tweet : EnrichedTweet.t) : Loop.t :=
  if bool_decide (EnrichedTweet.id tweet ∈ Loop.seenIds st) then st
  else {| Loop.allTweets := Loop.allTweets st ++ [tweet];
          Loop.seenIds := Loop.seenIds st ∪ {[EnrichedTweet.id tweet]};
          Loop.nextToken := Loop.nextToken st;
          Loop.fetched := Loop.fetched st + 1 |}.

(** One iteration, from the response to the assignment of [nextToken]. *)
Definition absorbPage (st : Loop.t) (page : TwitterV2ListResponse.t Tweet.t) : Loop.t :=
  let st' :=
    match TwitterV2ListResponse.data page with
    | Some _ => foldl addUnseen st (mergeTweetList page)
    | None => st
    end in
  {| Loop.allTweets := Loop.allTweets st';
     Loop.seenIds := Loop.seenIds st';
     Loop.nextToken := TwitterV2ListResponse.meta page ≫= TwitterMeta.next_token;
     Loop.fetched := Loop.fetched st' |}.

(** [!page.data?.length]. *)
Definition noItems (page : TwitterV2ListResponse.t Tweet.t) : bool :=
  match TwitterV2ListResponse.data page with
  | Some (_ :: _) => false
  | _ => true
  end.

(** [if (!nextToken || !page.data?.length) break], read after the page was
    absorbed into [st]. *)
Definition breaks (st : Loop.t) (page : TwitterV2ListResponse.t Tweet.t) : bool :=
  negb (truthy (Loop.nextToken st)) || noItems page.

(** The [while] loop over the scripted search responses.  Besides the final
    state it reports, for every search request sent, the state in which it
    was sent and its parameters. *)
Fixpoint paginate (conversationId : string) (fields : ThreadFieldParams.t) (cap : Z)
    (pages : list (Try (TwitterV2ListResponse.t Tweet.t))) (st : Loop.t)
    : list (Loop.t * Params) * Run Loop.t :=
  if Loop.fetched st <? cap then
    let sent := (st, searchParams conversationId fields cap st) in
    match pages with
    | [] => ([sent], Awaiting)
    | Throw e :: _ => ([sent], Failed e)
    | Return page :: pages' =>
        let st' := absorbPage st page in
        if breaks st' page then ([sent], Done st')
        else
          let '(rounds, run) := paginate conversationId fields cap pages' st' in
          (sent :: rounds, run)
    end
  else ([], Done st).

Section Thread.
Context {rt : Runtime}.

(** The creation time the code works with: none for a missing or empty
    [created_at], and none for one that is not a date. *)
Definition timestamp (created_at : option string) : option Z :=
  if truthy created_at then created_at ≫= Date_getTime else None.

(** The comparator of step 4. *)
Definition byCreatedAt (a b : EnrichedTweet.t) : option Z :=
  if negb (truthy (EnrichedTweet.created_at a))
     || negb (truthy (EnrichedTweet.created_at b))
  then Some 0
  else
    match EnrichedTweet.created_at a ≫= Date_getTime,
          EnrichedTweet.created_at b ≫= Date_getTime with
    | Some ta, Some tb => Some (ta - tb)
    | _, _ => None
    end.

(** Step 2, with [now] for [Date.now()]. *)
Definition ageWarningOf (now : Z) (root : Tweet.t) : option string :=
  if truthy (Tweet.created_at root) then
    match Tweet.created_at root ≫= Date_getTime with
    | Some created =>
        if SEVEN_DAYS_MS <? now - created then Some AGE_WARNING else None
    | None => None
    end
  else None.

Definition initialLoop (tweetId : string) (rootTweet : EnrichedTweet.t) : Loop.t :=
  {| Loop.allTweets := [rootTweet];
     Loop.seenIds := {[tweetId]};
     Loop.nextToken := None;
     Loop.fetched := 0 |}.

(** [buildThread], run against the response to the root request and the
    scripted responses to the search requests.  The first component lists
    the search requests sent (see [paginate]); the root request
    [rootRequest tweetId fields] always precedes them. *)
Definition buildThread (now : Z) (tweetId : string) (maxResults : Z)
    (fields : ThreadFieldParams.t)
    (rootResponse : Try (TwitterV2Response.t Tweet.t))
    (pages : list (Try (TwitterV2ListResponse.t Tweet.t)))
    : list (Loop.t * Params) * Run ThreadResult.t :=
  let cap := Z.min maxResults MAX_THREAD_TWEETS in
  match rootResponse with
  | Throw e => ([], Failed e)
  | Return rootResponse =>
      let rootTweet := mergeSingleTweet rootResponse in
      let conversationId := conversationIdOf (TwitterV2Response.data rootResponse) in
      let ageWarning := ageWarningOf now (TwitterV2Response.data rootResponse) in
      match paginate conversationId fields cap pages (initialLoop tweetId rootTweet) with
      | (rounds, Done st) =>
          (rounds,
           Done {| ThreadResult.tweets := Array_sort byCreatedAt (Loop.allTweets st);
                   ThreadResult.ageWarning := ageWarning |})
      | (rounds, Failed e) => (rounds, Failed e)
      | (rounds, Awaiting) => (rounds, Awaiting)
      end
  end.
End Thread.

(** ** The operations of the client facade that the properties below are
    about ([client.ts]) *)

Definition TWEET_FIELDS : string :=
  "author_id,conversation_id,created_at,in_reply_to_user_id,public_metrics,referenced_tweets".
Definition TWEET_EXPANSIONS : string := "author_id,referenced_tweets.id".
Definition USER_FIELDS : string :=
  "created_at,description,profile_image_url,public_metrics,verified".

Definition defaultTweetParams : Params :=
  list_to_map [("tweet.fields", TWEET_FIELDS);
               ("expansions", TWEET_EXPANSIONS);
               ("user.fields", USER_FIELDS)].

Definition getThread {rt : Runtime} (now : Z) (tweetId : string) (maxResults : Z)
    (rootResponse : Try (TwitterV2Response.t Tweet.t))
    (pages : list (Try (TwitterV2ListResponse.t Tweet.t)))
    : list (Loop.t * Params) * Run ThreadResult.t :=
  buildThread now tweetId maxResults
    {| ThreadFieldParams.tweetFields := TWEET_FIELDS;
       ThreadFieldParams.expansions := TWEET_EXPANSIONS;
       ThreadFieldParams.userFields := USER_FIELDS |}
    rootResponse pages.

(** [getReplies], run against the responses to its two requests; the
    first component lists the requests sent. *)
Definition getReplies (tweetId : string) (maxResults : Z)
    (original : Try (TwitterV2Response.t Tweet.t))
    (response : Try (TwitterV2ListResponse.t Tweet.t))
    : list Request * Try RepliesResult.t :=
  let first : Request := ("/tweets/" +:+ tweetId, defaultTweetParams) in
  match original with
  | Throw e => ([first], Throw e)
  | Return original =>
      let enrichedOriginal := mergeSingleTweet original in
      let conversationId := conversationIdOf (TwitterV2Response.data original) in
      let params : Params :=
        <["max_results" := pretty (Z.min maxResults 100)]>
          (<["query" := "conversation_id:" +:+ conversationId
                          +:+ " in_reply_to_tweet_id:" +:+ tweetId]>
             defaultTweetParams) in
      let second : Request := ("/tweets/search/recent", params) in
      match response with
      | Throw e => ([first; second], Throw e)
      | Return response =>
          ([first; second],
           Return {| RepliesResult.originalTweet := enrichedOriginal;
                     RepliesResult.replies := mergeTweetList response;
                     RepliesResult.resultCount :=
                       match TwitterV2ListResponse.meta response with
                       | Some meta => TwitterMeta.result_count meta
                       | None => 0
                       end |})
      end
  end.

(** ** The other operations of the client facade ([client.ts]) *)

Module TimelineResult.
Record t := {
  user : User.t;
  tweets : list EnrichedTweet.t
}.
End TimelineResult.

Module SearchResult.
Record t := {
  query : string;
  tweets : list EnrichedTweet.t;
  resultCount : Z
}.
End SearchResult.

Definition defaultUserParams : Params :=
  list_to_map [("user.fields", USER_FIELDS)].

(** [response.meta?.result_count ?? 0]. *)
Definition reportedCount (response : TwitterV2ListResponse.t Tweet.t) : Z :=
  match TwitterV2ListResponse.meta response with
  | Some meta => TwitterMeta.result_count meta
  | None => 0
  end.

(** [getTimeline], run against the responses to its two requests. *)
Definition getTimeline (username : string) (maxResults : Z)
    (userResponse : Try (TwitterV2Response.t User.t))
    (timeline : Try (TwitterV2ListResponse.t Tweet.t))
    : list Request * Try TimelineResult.t :=
  let first : Request := ("/users/by/username/" +:+ username, defaultUserParams) in
  match userResponse with
  | Throw e => ([first], Throw e)
  | Return userResponse =>
      let params : Params :=
        <["max_results" := pretty (Z.min maxResults 100)]> defaultTweetParams in
      let second : Request :=
        ("/users/" +:+ User.id (TwitterV2Response.data userResponse) +:+ "/tweets",
         params) in
      match timeline with
      | Throw e => ([first; second], Throw e)
      | Return timeline =>
          ([first; second],
           Return {| TimelineResult.user := TwitterV2Response.data userResponse;
                     TimelineResult.tweets := mergeTweetList timeline |})
      end
  end.

(** [searchRecent], run against the response to its request. *)
Definition searchRecent (query : string) (maxResults : Z)
    (response : Try (TwitterV2ListResponse.t Tweet.t))
    : list Request * Try SearchResult.t :=
  let params : Params :=
    <["max_results" := pretty (Z.min maxResults 100)]>
      (<["query" := query]> defaultTweetParams) in
  let first : Request := ("/tweets/search/recent", params) in
  match response with
  | Throw e => ([first], Throw e)
  | Return response =>
      ([first],
       Return {| SearchResult.query := query;
                 SearchResult.tweets := mergeTweetList response;
                 SearchResult.resultCount := reportedCount response |})
  end.

(** ** Markdown of a tweet ([formatters.ts]) *)

(** The separator of [lines.join('\n')]. *)
Definition newline : string := String (Ascii.ascii_of_nat 10) "".

(** The parts of the metrics line: the counts above zero, in the order
    likes, retweets, replies, quotes. *)
Definition metricsParts (m : TweetPublicMetrics.t) : list string :=
  (if 0 <? TweetPublicMetrics.like_count m
   then [pretty (TweetPublicMetrics.like_count m) +:+ " likes"] else [])
  ++ (if 0 <? TweetPublicMetrics.retweet_count m
      then [pretty (TweetPublicMetrics.retweet_count m) +:+ " retweets"] else [])
  ++ (if 0 <? TweetPublicMetrics.reply_count m
      then [pretty (TweetPublicMetrics.reply_count m) +:+ " replies"] else [])
  ++ (if 0 <? TweetPublicMetrics.quote_count m
      then [pretty (TweetPublicMetrics.quote_count m) +:+ " quotes"] else []).

(** The lines [formatTweetMarkdown] pushes, with [toLocaleString s] for
    [new Date(s).toLocaleString()]. *)
Definition tweetMarkdownLines (toLocaleString : string → string)
    (tweet : EnrichedTweet.t) : list string :=
  (match EnrichedTweet.author tweet with
   | Some author =>
       ["**@" +:+ User.username author +:+ "** (" +:+ User.name author +:+ ")"]
   | None => []
   end)
  ++ [EnrichedTweet.text tweet]
  ++ (match EnrichedTweet.created_at tweet with
      | Some created_at =>
          if truthy (Some created_at)
          then ["*" +:+ toLocaleString created_at +:+ "*"] else []
      | None => []
      end)
  ++ (match EnrichedTweet.public_metrics tweet with
      | Some m =>
          match metricsParts m with
          | [] => []
          | parts => [String.concat " | " parts]
          end
      | None => []
      end).

Definition formatTweetMarkdown (toLocaleString : string → string)
    (tweet : EnrichedTweet.t) : string :=
  String.concat newline (tweetMarkdownLines toLocaleString tweet).

(** ** Vocabulary of the properties *)

(** The identifiers of an includes envelope are pairwise distinct. *)
Definition distinctIncludes (includes : TwitterIncludes.t) : Prop :=
  from_option (λ users, NoDup (User.id <$> users)) True (TwitterIncludes.users includes)
  ∧ from_option (λ tweets, NoDup (Tweet.id <$> tweets)) True (TwitterIncludes.tweets includes).

(** Two includes envelopes hold the same actors and the same items, each
    array up to its order. *)
Definition permutedIncludes (includes includes' : TwitterIncludes.t) : Prop :=
  option_Forall2 (≡ₚ) (TwitterIncludes.users includes) (TwitterIncludes.users includes')
  ∧ option_Forall2 (≡ₚ) (TwitterIncludes.tweets includes) (TwitterIncludes.tweets includes').

(** The creation time of an item of a thread. *)
Definition createdAt {rt : Runtime} (e : EnrichedTweet.t) : option Z :=
  timestamp (EnrichedTweet.created_at e).


(** The number of items accumulated beyond the seed. *)
Definition accumulatedBeyondSeed (st : Loop.t) : Z :=
  Z.of_nat (length (Loop.allTweets st)) - 1.

(** What the pagination loop maintains for the requested identifier
    [tweetId] and the seed [rootTweet]: the accumulator is the seed followed
    by the discovered items; the identifiers of the discovered items are
    pairwise distinct and all in the seen-set; and the requested identifier
    is in the seen-set and is the identifier of no discovered item. *)
Definition loopInvariant (tweetId : string) (rootTweet : EnrichedTweet.t)
    (st : Loop.t) : Prop :=
  ∃ discovered,
    Loop.allTweets st = rootTweet :: discovered
    ∧ NoDup (EnrichedTweet.id <$> discovered)
    ∧ (∀ e, e ∈ discovered → EnrichedTweet.id e ∈ Loop.seenIds st)
    ∧ tweetId ∈ Loop.seenIds st
    ∧ tweetId ∉ EnrichedTweet.id <$> discovered.

(** ** Sample data, after the repository's tests *)

Definition mockUser : User.t :=
  {| User.id := "user_1"; User.name := "Test User"; User.username := "testuser";
     User.description := None; User.created_at := None;
     User.profile_image_url := None; User.verified := None;
     User.public_metrics := None |}.

Definition makeTweet (id text : string) (createdAt : option string)
    (conversationId : string) : Tweet.t :=
  {| Tweet.id := id; Tweet.text := text; Tweet.author_id := Some "user_1";
     Tweet.conversation_id := Some conversationId; Tweet.created_at := createdAt;
     Tweet.in_reply_to_user_id := None; Tweet.referenced_tweets := None;
     Tweet.public_metrics := None |}.

(** Two actors of an includes envelope that share an identifier. *)
Definition renamedUser : User.t :=
  {| User.id := "user_1"; User.name := "Renamed User"; User.username := "renamed";
     User.description := None; User.created_at := None;
     User.profile_image_url := None; User.verified := None;
     User.public_metrics := None |}.

Definition listEnvelope (data : option (list Tweet.t))
    (users : option (list User.t)) (tweets : option (list Tweet.t))
    (meta : option TwitterMeta.t) : TwitterV2ListResponse.t Tweet.t :=
  {| TwitterV2ListResponse.data := data;
     TwitterV2ListResponse.includes :=
       Some {| TwitterIncludes.users := users; TwitterIncludes.tweets := tweets |};
     TwitterV2ListResponse.meta := meta |}.

(** The error bodies of the client's tests, and a stand-in for [JSON.parse]
    that reads them. *)
Definition inQuotes (s : string) : string :=
  String (Ascii.ascii_of_nat 34) s +:+ String (Ascii.ascii_of_nat 34) "".

Definition detailBody (detail : string) : string :=
  "{" +:+ inQuotes "detail" +:+ ":" +:+ inQuotes detail +:+ "}".

Definition emptyObjectBody : string := "{}".

Definition sampleParse (body : string) : Try json :=
  if String.eqb body (detailBody "Too Many Requests")
  then Return (JObject [("detail", JString "Too Many Requests")])
  else if String.eqb body (detailBody "Forbidden")
  then Return (JObject [("detail", JString "Forbidden")])
  else if String.eqb body emptyObjectBody
  then Return (JObject [])
  else Throw (OtherError "SyntaxError" "JSON Parse error").

Definition sampleToString (v : json) : string :=
  match v with
  | JNull => "null"
  | JBool true => "true"
  | JBool false => "false"
  | JNumber numeral => numeral
  | JString s => s
  | JArray _ => ""
  | JObject _ => "[object Object]"
  end.

Definition sampleErrorCategory (e : JsError) : string := "unknown".

Definition respond (status : Z) (body : string) : FetchOutcome :=
  Responded {| Response.status := status; Response.body := body |}.

(** A stand-in for [Date] that reads the dates of the examples. *)
Definition sampleGetTime (s : string) : option Z :=
  if String.eqb s "1970-01-01T00:00:00.001Z" then Some 1
  else if String.eqb s "1970-01-01T00:00:00.003Z" then Some 3
  else if String.eqb s "1970-01-01T00:00:00.005Z" then Some 5
  else None.

(** The sample runtime sorts by stable insertion whatever the comparator. *)
Definition sampleRuntime : Runtime :=
  {| JSON_parse := sampleParse;
     ToString_nonstring := sampleToString;
     getErrorCategory := sampleErrorCategory;
     Date_getTime := sampleGetTime;
     Array_sort := λ A comparefn l, stableSort comparefn l;
     sort_rearranges := λ A comparefn l, stableSort_Permutation comparefn l;
     sort_consistent := λ A comparefn l _, eq_refl |}.

(** The field selection, the root response and the search pages of the
    thread tests. *)
Definition sampleFields : ThreadFieldParams.t :=
  {| ThreadFieldParams.tweetFields := "author_id,conversation_id,created_at,public_metrics";
     ThreadFieldParams.expansions := "author_id";
     ThreadFieldParams.userFields := "name,username" |}.

Definition rootEnvelope (tweet : Tweet.t) : TwitterV2Response.t Tweet.t :=
  {| TwitterV2Response.data := tweet;
     TwitterV2Response.includes :=
       Some {| TwitterIncludes.users := Some [mockUser];
               TwitterIncludes.tweets := None |} |}.

Definition searchPage (data : list Tweet.t) (next_token : option string)
    : TwitterV2ListResponse.t Tweet.t :=
  listEnvelope (Some data) (Some [mockUser]) None
    (Some {| TwitterMeta.result_count := Z.of_nat (length data);
             TwitterMeta.newest_id := None;
             TwitterMeta.oldest_id := None;
             TwitterMeta.next_token := next_token |}).

Definition sampleRoot : Tweet.t :=
  makeTweet "tweet_root" "Root tweet" (Some "1970-01-01T00:00:00.001Z") "tweet_root".


(** A page that repeats the seed and a reply. *)
Definition repeatingPage : TwitterV2ListResponse.t Tweet.t :=
  searchPage
    [sampleRoot;
     makeTweet "r1" "Reply 1" (Some "1970-01-01T00:00:00.003Z") "tweet_root";
     makeTweet "r1" "Reply 1" (Some "1970-01-01T00:00:00.003Z") "tweet_root"]
    None.


(** A tweet merged against the includes of the sample envelopes. *)
Definition enriched (tweet : Tweet.t) : EnrichedTweet.t :=
  mergeSingleTweet (rootEnvelope tweet).

Definition reply (id text : string) (createdAt : option string) : Tweet.t :=
  makeTweet id text createdAt "tweet_root".

(** The two pages of the pagination test. *)
Definition pageOne : TwitterV2ListResponse.t Tweet.t :=
  searchPage [reply "r1" "Reply 1" (Some "1970-01-01T00:00:00.003Z")] (Some "page2").

Definition pageTwo : TwitterV2ListResponse.t Tweet.t :=
  searchPage [reply "r2" "Reply 2" (Some "1970-01-01T00:00:00.005Z")] None.

(** A runtime whose parser also reads the JSON literal [null]. *)
Definition literalRuntime : Runtime :=
  {| JSON_parse := λ body, if String.eqb body "null" then Return JNull
                           else sampleParse body;
     ToString_nonstring := sampleToString;
     getErrorCategory := sampleErrorCategory;
     Date_getTime := sampleGetTime;
     Array_sort := λ A comparefn l, stableSort comparefn l;
     sort_rearranges := λ A comparefn l, stableSort_Permutation comparefn l;
     sort_consistent := λ A comparefn l _, eq_refl |}.

(** The state in which the sample threads send their first search request,
    and the request. *)
Definition sampleStart : Loop.t := initialLoop "tweet_root" (enriched sampleRoot).

Definition sampleRound (st : Loop.t) : Loop.t * Params :=
  (st, searchParams "tweet_root" sampleFields 50 st).

(** A page of two replies created at the same time. *)
Definition tiedPage : TwitterV2ListResponse.t Tweet.t :=
  searchPage [reply "r1" "Reply 1" (Some "1970-01-01T00:00:00.003Z");
              reply "r2" "Reply 2" (Some "1970-01-01T00:00:00.003Z")] None.

(** A tweet whose counts are all zero. *)
Definition quietTweet : EnrichedTweet.t :=
  {| EnrichedTweet.id := "t1"; EnrichedTweet.text := "No metrics";
     EnrichedTweet.author_id := None; EnrichedTweet.conversation_id := None;
     EnrichedTweet.created_at := None; EnrichedTweet.in_reply_to_user_id := None;
     EnrichedTweet.referenced_tweets := None;
     EnrichedTweet.public_metrics :=
       Some {| TweetPublicMetrics.retweet_count := 0;
               TweetPublicMetrics.reply_count := 0;
               TweetPublicMetrics.like_count := 0;
               TweetPublicMetrics.quote_count := 0;
               TweetPublicMetrics.bookmark_count := None;
               TweetPublicMetrics.impression_count := None |};
     EnrichedTweet.author := None;
     EnrichedTweet.referenced_tweet_data := None |}.

(** * Properties *)

(** ** Includes merge *)

Lemma Map_new_list_to_map {V} (kvs : list (string * V)) :
  Map_new (Some kvs) = list_to_map (reverse kvs).
Proof.
  unfold Map_new. induction kvs as [|kv kvs IH] using rev_ind; [done|].
  by rewrite foldl_snoc, reverse_snoc, IH.
Qed.

(** With pairwise distinct keys, the map does not depend on the order of
    the entries. *)
Lemma Map_new_Permutation {V} (kvs kvs' : list (string * V)) :
  NoDup kvs.*1 → kvs ≡ₚ kvs' → Map_new (Some kvs) = Map_new (Some kvs').
Proof.
  intros Hnd Hp. rewrite !Map_new_list_to_map. apply list_to_map_proper.
  - by rewrite fmap_reverse, reverse_Permutation.
  - by rewrite !reverse_Permutation.
Qed.

Lemma Map_new_keyed_Permutation {V} (key : V → string) (l l' : list V) :
  NoDup (key <$> l) → l ≡ₚ l' →
  Map_new (Some ((λ v, (key v, v)) <$> l)) = Map_new (Some ((λ v, (key v, v)) <$> l')).
Proof.
  intros Hnd Hp. apply Map_new_Permutation.
  - by rewrite <-list_fmap_compose.
  - by rewrite Hp.
Qed.

Lemma buildMaps_permuted includes includes' :
  distinctIncludes includes → permutedIncludes includes includes' →
  buildMaps (Some includes) = buildMaps (Some includes').
Proof.
  intros [Hu Ht] [Pu Pt]. unfold buildMaps. simpl. f_equal.
  - destruct Pu as [us us' Pu|]; simpl in *; [|done].
    by apply (Map_new_keyed_Permutation User.id).
  - destruct Pt as [ts ts' Pt|]; simpl in *; [|done].
    by apply (Map_new_keyed_Permutation Tweet.id).
Qed.

Lemma as_Tweet_enrichTweet tweet userMap tweetMap :
  EnrichedTweet.as_Tweet (enrichTweet tweet userMap tweetMap) = tweet.
Proof. by destruct tweet. Qed.

Lemma mergeTweetList_Some data includes meta :
  mergeTweetList {| TwitterV2ListResponse.data := Some data;
                    TwitterV2ListResponse.includes := includes;
                    TwitterV2ListResponse.meta := meta |}
  = (λ tweet, enrichTweet tweet (buildMaps includes).1 (buildMaps includes).2) <$> data.
Proof. done. Qed.

Lemma mergeSingleTweet_eq tweet includes :
  mergeSingleTweet {| TwitterV2Response.data := tweet;
                      TwitterV2Response.includes := includes |}
  = enrichTweet tweet (buildMaps includes).1 (buildMaps includes).2.
Proof. done. Qed.

Lemma as_Tweet_enriched_list userMap tweetMap (tweets : list Tweet.t) :
  EnrichedTweet.as_Tweet <$> ((λ tweet, enrichTweet tweet userMap tweetMap) <$> tweets)
  = tweets.
Proof.
  induction tweets as [|t ts IH]; [done|].
  by rewrite !fmap_cons, IH, as_Tweet_enrichTweet.
Qed.

(** C8: a list response whose [data] is absent merges to the empty sequence,
    whatever the includes envelope and the metadata hold, and so does one
    whose [data] is the empty list. *)
Theorem mergeTweetList_absent_data
    (includes : option TwitterIncludes.t) (meta : option TwitterMeta.t) :
  mergeTweetList {| TwitterV2ListResponse.data := None;
                    TwitterV2ListResponse.includes := includes;
                    TwitterV2ListResponse.meta := meta |} = []
  ∧ mergeTweetList {| TwitterV2ListResponse.data := Some [];
                      TwitterV2ListResponse.includes := includes;
                      TwitterV2ListResponse.meta := meta |} = [].
Proof.
  split; [done|]. by rewrite mergeTweetList_Some.
Qed.

(** C10: enrichment agrees with its input on every property of the input
    (identifier, text, author identifier, conversation identifier, creation
    timestamp, reply-to user, references, engagement counters), for a single
    response and for every item of a list response; read at the type of the
    input, the enriched item is the input. *)
Theorem enrichTweet_preserves_fields
    (tweet : Tweet.t) (tweets : list Tweet.t)
    (includes : option TwitterIncludes.t) (meta : option TwitterMeta.t) :
  let e := mergeSingleTweet {| TwitterV2Response.data := tweet;
                               TwitterV2Response.includes := includes |} in
  EnrichedTweet.id e = Tweet.id tweet
  ∧ EnrichedTweet.text e = Tweet.text tweet
  ∧ EnrichedTweet.author_id e = Tweet.author_id tweet
  ∧ EnrichedTweet.conversation_id e = Tweet.conversation_id tweet
  ∧ EnrichedTweet.created_at e = Tweet.created_at tweet
  ∧ EnrichedTweet.in_reply_to_user_id e = Tweet.in_reply_to_user_id tweet
  ∧ EnrichedTweet.referenced_tweets e = Tweet.referenced_tweets tweet
  ∧ EnrichedTweet.public_metrics e = Tweet.public_metrics tweet
  ∧ EnrichedTweet.as_Tweet e = tweet
  ∧ EnrichedTweet.as_Tweet
      <$> mergeTweetList {| TwitterV2ListResponse.data := Some tweets;
                            TwitterV2ListResponse.includes := includes;
                            TwitterV2ListResponse.meta := meta |} = tweets.
Proof.
  rewrite mergeSingleTweet_eq, mergeTweetList_Some.
  repeat split; try done.
  - apply as_Tweet_enrichTweet.
  - apply as_Tweet_enriched_list.
Qed.

(** C7, as stated, fails: two actors of the includes envelope share an
    identifier, and the author resolved for the item is the one that comes
    last in the array. *)
Lemma mergeTweetList_order_dependent :
  let data := Some [makeTweet "tweet_1" "Hello world" None "tweet_1"] in
  permutedIncludes
    {| TwitterIncludes.users := Some [mockUser; renamedUser];
       TwitterIncludes.tweets := None |}
    {| TwitterIncludes.users := Some [renamedUser; mockUser];
       TwitterIncludes.tweets := None |}
  ∧ EnrichedTweet.author
      <$> mergeTweetList (listEnvelope data (Some [mockUser; renamedUser]) None None)
      = [Some renamedUser]
  ∧ EnrichedTweet.author
      <$> mergeTweetList (listEnvelope data (Some [renamedUser; mockUser]) None None)
      = [Some mockUser]
  ∧ mergeTweetList (listEnvelope data (Some [mockUser; renamedUser]) None None)
    ≠ mergeTweetList (listEnvelope data (Some [renamedUser; mockUser]) None None).
Proof.
  simpl. split; [|split; [|split]].
  - split; constructor. apply Permutation_swap.
  - by vm_compute.
  - by vm_compute.
  - vm_compute. discriminate.
Qed.

(** C7 (amended): merging the merged items once more against the same
    includes gives them back unchanged; and when the identifiers in the
    includes envelope's actor array are pairwise distinct, and so are those
    in its item array, every reordering of the two arrays merges to the same
    enriched items, for a list response and for a single response. *)
Theorem mergeTweetList_idempotent_order_independent
    (data : option (list Tweet.t)) (tweet : Tweet.t)
    (includes includes' : TwitterIncludes.t) (meta : option TwitterMeta.t) :
  let envelope (includes : option TwitterIncludes.t) :=
    {| TwitterV2ListResponse.data := data;
       TwitterV2ListResponse.includes := includes;
       TwitterV2ListResponse.meta := meta |} in
  (∀ includes0,
     mergeTweetList
       {| TwitterV2ListResponse.data :=
            Some (EnrichedTweet.as_Tweet <$> mergeTweetList (envelope includes0));
          TwitterV2ListResponse.includes := includes0;
          TwitterV2ListResponse.meta := meta |}
     = mergeTweetList (envelope includes0))
  ∧ (distinctIncludes includes →
     permutedIncludes includes includes' →
     mergeTweetList (envelope (Some includes'))
     = mergeTweetList (envelope (Some includes))
     ∧ mergeSingleTweet {| TwitterV2Response.data := tweet;
                           TwitterV2Response.includes := Some includes' |}
       = mergeSingleTweet {| TwitterV2Response.data := tweet;
                             TwitterV2Response.includes := Some includes |}).
Proof.
  intros envelope. unfold envelope. split.
  - intros includes0. destruct data as [tweets|]; [|done].
    by rewrite !mergeTweetList_Some, as_Tweet_enriched_list.
  - intros Hd Hp. pose proof (buildMaps_permuted _ _ Hd Hp) as Hmaps.
    rewrite !mergeSingleTweet_eq, <-Hmaps. split; [|done].
    destruct data as [tweets|]; [|done]. by rewrite !mergeTweetList_Some, <-Hmaps.
Qed.

Lemma mergeTweetList_idempotent_order_independent_witness :
  let user2 :=
    {| User.id := "user_2"; User.name := "Other User"; User.username := "other";
       User.description := None; User.created_at := None;
       User.profile_image_url := None; User.verified := None;
       User.public_metrics := None |} in
  let data := Some [makeTweet "tweet_1" "Hello world" None "tweet_1"] in
  mergeTweetList (listEnvelope data (Some [user2; mockUser]) None None)
  = mergeTweetList (listEnvelope data (Some [mockUser; user2]) None None).
Proof.
  intros user2 data.
  refine (proj1 (proj2 (mergeTweetList_idempotent_order_independent data
            (makeTweet "tweet_1" "Hello world" None "tweet_1")
            {| TwitterIncludes.users := Some [mockUser; user2];
               TwitterIncludes.tweets := None |}
            {| TwitterIncludes.users := Some [user2; mockUser];
               TwitterIncludes.tweets := None |} None) _ _)).
  - split; simpl; [|done]. by apply (bool_decide_unpack _).
  - split; constructor. apply Permutation_swap.
Defined.

(** ** Error classification and the retry policy *)





(** [retry_from] stops at the first attempt that succeeds or that is not to
    be retried, and at the latest when the attempts are used up. *)
Lemma retry_from_spec {A} (fn : nat → Try A) (sr : JsError → bool)
    (remaining k : nat) :
  let r := retry_from fn sr remaining k in
  (k < r.2 ≤ k + remaining + 1)%nat
  ∧ r.1 = fn (r.2 - 1)%nat
  ∧ (∀ j, (k ≤ j < r.2 - 1)%nat → ∃ e, fn j = Throw e ∧ sr e = true)
  ∧ (∀ e, r.1 = Throw e → r.2 = (k + remaining + 1)%nat ∨ sr e = false).
Proof.
  revert k. induction remaining as [|n IH]; intros k; simpl.
  - destruct (fn k) as [a|e] eqn:Hk; simpl; rewrite Nat.sub_0_r, Hk.
    + split_and!; [lia | lia | done | intros j ?; lia | done].
    + split_and!; [lia | lia | done | intros j ?; lia | intros e' _; left; lia].
  - destruct (fn k) as [a|e] eqn:Hk; simpl.
    + rewrite Nat.sub_0_r, Hk.
      split_and!; [lia | lia | done | intros j ?; lia | done].
    + destruct (sr e) eqn:Hsr; simpl.
      * destruct (IH (S k)) as (Hn & Hr & Hpre & Hlast).
        split_and!; [lia | lia | done | |].
        -- intros j Hj. destruct (decide (j = k)) as [->|Hne].
           ++ by exists e.
           ++ apply Hpre. lia.
        -- intros e' He'. destruct (Hlast e' He') as [->|Hf]; [left; lia|by right].
      * rewrite Nat.sub_0_r, Hk.
        split_and!; [lia | lia | done | intros j ?; lia |].
        intros e' [= <-]. by right.
Qed.

Section ClientProperties.
Context {rt : Runtime}.






(** The errors that [request] lets [retry] try again. *)
Lemma shouldRetry_transient (error : JsError) :
  shouldRetry error = true ↔
    (∃ message, error = TimeoutError message)
    ∨ (∃ failure, error = ApiError failure
                  ∧ TwitterApiError.category failure = transient)
    ∨ (∃ name message, error = OtherError name message
                       ∧ getErrorCategory error = "transient").
Proof.
  destruct error as [m|failure|n m]; simpl.
  - split; [intros _; left; by exists m|done].
  - destruct (TwitterApiError.category failure) eqn:Hc; split; try done.
    + intros _. right. left. by exists failure.
    + intros [[? [=]]|[(f & [= <-] & Hf)|(? & ? & [=] & _)]]. congruence.
    + intros [[? [=]]|[(f & [= <-] & Hf)|(? & ? & [=] & _)]]. congruence.
  - rewrite String.eqb_eq. split.
    + intros Hg. right. right. by exists n, m.
    + by intros [[? [=]]|[(f & [=] & _)|(? & ? & _ & Hg)]].
Qed.

(** C2: [request] makes between one and three attempts; its result is the
    outcome of the last attempt made; every attempt that was followed by
    another one had failed with a transient failure (a timeout, a classified
    failure of category [transient], or an error that [getErrorCategory]
    calls transient), so the first success ends the request and a
    [configuration] or [permanent] failure ends it at once with that failure;
    and a failure is raised only when it is not transient or all three
    attempts are used up. *)
Theorem request_retry_policy (fetchFn : nat → FetchOutcome) (endpoint : string) :
  let outcome := λ k, attempt endpoint (fetchFn k) in
  let result := (request fetchFn endpoint).1 in
  let attempts := (request fetchFn endpoint).2 in
  (1 ≤ attempts ≤ 3)%nat
  ∧ result = outcome (attempts - 1)%nat
  ∧ (∀ k, (k < attempts - 1)%nat →
       ∃ error, outcome k = Throw error ∧ shouldRetry error = true)
  ∧ (∀ k value, (k < attempts)%nat → outcome k = Return value →
       result = Return value ∧ attempts = S k)
  ∧ (∀ k failure, (k < attempts)%nat → outcome k = Throw (ApiError failure) →
       TwitterApiError.category failure ≠ transient →
       result = Throw (ApiError failure) ∧ attempts = S k)
  ∧ (∀ error, result = Throw error →
       attempts = 3%nat ∨ shouldRetry error = false)
  ∧ (∀ error, shouldRetry error = true ↔
       (∃ message, error = TimeoutError message)
       ∨ (∃ failure, error = ApiError failure
                     ∧ TwitterApiError.category failure = transient)
       ∨ (∃ name message, error = OtherError name message
                          ∧ getErrorCategory error = "transient")).
Proof.
  intros outcome result attempts.
  pose proof (retry_from_spec outcome shouldRetry 2 0) as Hspec.
  cbv zeta in Hspec.
  change (retry_from outcome shouldRetry 2 0).1 with result in Hspec.
  change (retry_from outcome shouldRetry 2 0).2 with attempts in Hspec.
  clearbody result attempts. destruct Hspec as (Hn & Hr & Hpre & Hlast).
  assert (Hstop : ∀ k, (k < attempts)%nat →
            (∀ error, outcome k = Throw error → shouldRetry error = false) →
            result = outcome k ∧ attempts = S k).
  { intros k Hk Hno. destruct (decide (k = attempts - 1)%nat) as [->|Hne].
    - split; [done|lia].
    - destruct (Hpre k) as (error & He & Hs); [lia|].
      rewrite (Hno error He) in Hs. done. }
  split_and!.
  - lia.
  - lia.
  - done.
  - intros k Hk. apply Hpre. lia.
  - intros k value Hk Hv. rewrite <-Hv. apply Hstop; [done|].
    intros error He. congruence.
  - intros k failure Hk Hf Hc. rewrite <-Hf. apply Hstop; [done|].
    intros error He. rewrite Hf in He. injection He as <-. simpl.
    by destruct (TwitterApiError.category failure).
  - intros error He. destruct (Hlast error He) as [->|?]; [by left|by right].
  - apply shouldRetry_transient.
Qed.

End ClientProperties.

(** The client's tests of the retry policy, run on the model: two 429
    responses and then a 200 take three transport calls; a 403 takes one and
    is raised as a [configuration] failure. *)
Example request_retries_on_429 :
  let fetchFn := λ k : nat,
    if (k <? 2)%nat then respond 429 (detailBody "Too Many Requests")
    else respond 200 emptyObjectBody in
  request (rt := sampleRuntime) fetchFn "/tweets/tweet_1" = (Return (JObject []), 3%nat).
Proof. reflexivity. Qed.

Example request_does_not_retry_on_403 :
  request (rt := sampleRuntime) (λ _, respond 403 (detailBody "Forbidden")) "/tweets/1"
  = (Throw (ApiError {| TwitterApiError.message := "Forbidden: Forbidden (check API tier)";
                        TwitterApiError.status := 403;
                        TwitterApiError.category := configuration |}), 1%nat).
Proof. reflexivity. Qed.

(** ** The sort *)

Section ArraySortProperties.
Context {A : Type} (comparefn : A → A → option Z).



End ArraySortProperties.

(** Whatever the comparator, the engine's sort rearranges the list. *)
Lemma Array_sort_Permutation {rt : Runtime} {A} (comparefn : A → A → option Z)
    (l : list A) :
  Array_sort comparefn l ≡ₚ l.
Proof. apply sort_rearranges. Qed.

Lemma Array_sort_singleton {rt : Runtime} {A} (comparefn : A → A → option Z) (x : A) :
  Array_sort comparefn [x] = [x].
Proof. apply Permutation_singleton_r, Array_sort_Permutation. Qed.

(** ** Thread reconstruction *)

Lemma addUnseen_invariant tweetId rootTweet st tweet :
  loopInvariant tweetId rootTweet st → loopInvariant tweetId rootTweet (addUnseen st tweet).
Proof.
  intros (discovered & Hall & Hnd & Hseen & Hreq & Hfresh).
  unfold addUnseen. case_bool_decide as Hin; [by exists discovered|].
  exists (discovered ++ [tweet]). simpl. split_and!.
  - by rewrite Hall.
  - rewrite fmap_app. apply NoDup_app. split_and!; [done| |apply NoDup_singleton].
    intros i Hi ->%list_elem_of_singleton.
    apply list_elem_of_fmap in Hi as (e & He & Hi). apply Hin. rewrite He. eauto.
  - intros e [He| ->%list_elem_of_singleton]%elem_of_app; set_solver.
  - set_solver.
  - rewrite fmap_app. intros [Hd| ->%list_elem_of_singleton]%elem_of_app; [done|].
    by apply Hin.
Qed.

Lemma addUnseen_extends st tweet :
  ∃ more, Loop.allTweets (addUnseen st tweet) = Loop.allTweets st ++ more.
Proof.
  unfold addUnseen. case_bool_decide; simpl; [|by eexists].
  exists []. by rewrite app_nil_r.
Qed.

Lemma foldl_addUnseen_invariant tweetId rootTweet tweets st :
  loopInvariant tweetId rootTweet st →
  loopInvariant tweetId rootTweet (foldl addUnseen st tweets).
Proof.
  revert st. induction tweets as [|t ts IH]; intros st Hst; simpl; [done|].
  by apply IH, addUnseen_invariant.
Qed.

Lemma foldl_addUnseen_extends tweets st :
  ∃ more, Loop.allTweets (foldl addUnseen st tweets) = Loop.allTweets st ++ more.
Proof.
  revert st. induction tweets as [|t ts IH]; intros st; simpl.
  - exists []. by rewrite app_nil_r.
  - destruct (IH (addUnseen st t)) as [more ->].
    destruct (addUnseen_extends st t) as [more' ->].
    exists (more' ++ more). by rewrite app_assoc.
Qed.

Lemma absorbPage_invariant tweetId rootTweet st page :
  loopInvariant tweetId rootTweet st → loopInvariant tweetId rootTweet (absorbPage st page).
Proof.
  intros Hst. unfold absorbPage.
  destruct (TwitterV2ListResponse.data page); [|done].
  by apply (foldl_addUnseen_invariant _ _ (mergeTweetList page)) in Hst.
Qed.

Lemma absorbPage_extends st page :
  ∃ more, Loop.allTweets (absorbPage st page) = Loop.allTweets st ++ more.
Proof.
  unfold absorbPage. destruct (TwitterV2ListResponse.data page); simpl.
  - apply foldl_addUnseen_extends.
  - exists []. by rewrite app_nil_r.
Qed.

Lemma paginate_invariant tweetId rootTweet conversationId fields cap pages st rounds st' :
  paginate conversationId fields cap pages st = (rounds, Done st') →
  loopInvariant tweetId rootTweet st →
  loopInvariant tweetId rootTweet st'.
Proof.
  revert st rounds. induction pages as [|[page|e] pages IH]; intros st rounds; simpl.
  - case_match; [done|]. by intros [= <- <-] Hst.
  - case_match; [|by intros [= <- <-] Hst].
    destruct (breaks (absorbPage st page) page).
    + intros [= <- <-] Hst. by apply absorbPage_invariant.
    + destruct (paginate _ _ _ pages (absorbPage st page)) as [rounds' run] eqn:Hp.
      intros [= <- ->] Hst.
      apply (IH _ _ Hp (absorbPage_invariant _ _ _ page Hst)).
  - case_match; [done|]. by intros [= <- <-] Hst.
Qed.

(** Every search request is sent with fewer items accumulated than the cap;
    the first one in the initial state, and every later one in the state
    that absorbing the previous page left, a page after which the loop did
    not break. *)
Lemma paginate_rounds conversationId fields cap pages st rounds run :
  paginate conversationId fields cap pages st = (rounds, run) →
  ∀ k stk params, rounds !! k = Some (stk, params) →
    Loop.fetched stk < cap
    ∧ params = searchParams conversationId fields cap stk
    ∧ (k = 0%nat → stk = st)
    ∧ (∀ k', k = S k' →
         ∃ st0 params0 page,
           rounds !! k' = Some (st0, params0)
           ∧ pages !! k' = Some (Return page)
           ∧ stk = absorbPage st0 page
           ∧ breaks stk page = false).
Proof.
  revert st rounds.
  induction pages as [|[page|e] pages IH]; intros st rounds; simpl;
    destruct (Loop.fetched st <? cap) eqn:Hlt;
    try (intros [= <- <-] k stk params Hk; by destruct k).
  - intros [= <- <-] [|k] stk params [=]. subst.
    split_and!; [lia|done|done|done].
  - destruct (breaks (absorbPage st page) page) eqn:Hb.
    + intros [= <- <-] [|k] stk params [=]. subst.
      split_and!; [lia|done|done|done].
    + destruct (paginate _ _ _ pages (absorbPage st page)) as [rounds' run'] eqn:Hp.
      intros [= <- <-] [|k] stk params Hk; simpl in Hk.
      * injection Hk as <- <-. split_and!; [lia|done|done|done].
      * destruct (IH _ _ Hp k stk params Hk) as (Hf & Hparams & H0 & HS).
        split_and!; [done|done|done|].
        intros k' [= <-]. destruct k as [|k].
        -- rewrite (H0 eq_refl). by eexists st, _, page.
        -- destruct (HS k eq_refl) as (st0 & params0 & page0 & ? & ? & ? & ?).
           by exists st0, params0, page0.
  - intros [= <- <-] [|k] stk params [=]. subst.
    split_and!; [lia|done|done|done].
Qed.

Lemma filter_none {A} (P : A → Prop) `{!∀ x, Decision (P x)} (l : list A) :
  (∀ x, x ∈ l → ¬ P x) → filter P l = [].
Proof.
  induction l as [|x l IH]; intros Hl; [done|].
  rewrite filter_cons_False by (apply Hl; set_solver).
  apply IH. intros y Hy. apply Hl. set_solver.
Qed.

Section ThreadProperties.
Context {rt : Runtime}.

Lemma sorts_before_byCreatedAt a b :
  sorts_before byCreatedAt a b = true ↔
    ∃ ta tb, createdAt a = Some ta ∧ createdAt b = Some tb ∧ ta < tb.
Proof.
  unfold sorts_before, byCreatedAt, createdAt, timestamp.
  destruct (truthy (EnrichedTweet.created_at a)),
           (truthy (EnrichedTweet.created_at b)); simpl;
    try (split; [done|by intros (? & ? & ? & ? & ?)]).
  destruct (EnrichedTweet.created_at a ≫= Date_getTime) as [ta|],
           (EnrichedTweet.created_at b ≫= Date_getTime) as [tb|];
    try (split; [done|by intros (? & ? & ? & ? & ?)]).
  rewrite Z.ltb_lt. split.
  - intros Hlt. exists ta, tb. split_and!; [done|done|lia].
  - intros (? & ? & [= <-] & [= <-] & Hlt). lia.
Qed.


Lemma mergeSingleTweet_id (response : TwitterV2Response.t Tweet.t) :
  EnrichedTweet.id (mergeSingleTweet response)
  = Tweet.id (TwitterV2Response.data response).
Proof. by destruct response. Qed.

Lemma initialLoop_invariant (tweetId : string) (rootTweet : EnrichedTweet.t) :
  loopInvariant tweetId rootTweet (initialLoop tweetId rootTweet).
Proof.
  exists []. simpl. split_and!; [done|apply NoDup_nil_2|set_solver|set_solver|set_solver].
Qed.

(** The comparator on two items that carry a creation time. *)
Lemma byCreatedAt_dated a b ta tb :
  createdAt a = Some ta → createdAt b = Some tb →
  byCreatedAt a b = Some (ta - tb).
Proof.
  unfold byCreatedAt, createdAt, timestamp.
  destruct (truthy (EnrichedTweet.created_at a)); [|done].
  destruct (truthy (EnrichedTweet.created_at b)); [|done].
  simpl. by intros -> ->.
Qed.

(** On items that all carry a creation time the comparator is consistent. *)
Lemma byCreatedAt_consistent (l : list EnrichedTweet.t) :
  Forall (λ e, is_Some (createdAt e)) l → consistentComparator byCreatedAt l.
Proof.
  rewrite Forall_forall. intros Hall.
  assert (∀ a b, a ∈ l → b ∈ l →
            ∃ ta tb, createdAt a = Some ta ∧ createdAt b = Some tb
                     ∧ byCreatedAt a b = Some (ta - tb)) as Hcmp.
  { intros a b [ta Ha]%Hall [tb Hb]%Hall. exists ta, tb.
    split_and!; [done|done|by apply byCreatedAt_dated]. }
  unfold consistentComparator, sortCompare. split_and!.
  - intros a b Ha Hb. destruct (Hcmp a b Ha Hb) as (? & ? & _ & _ & ->). by eexists.
  - intros a Ha. destruct (Hcmp a a Ha Ha) as (? & ? & ? & ? & ->).
    simplify_eq/=. lia.
  - intros a b Ha Hb.
    destruct (Hcmp a b Ha Hb) as (? & ? & ? & ? & ->).
    destruct (Hcmp b a Hb Ha) as (? & ? & ? & ? & ->). simplify_eq/=. lia.
  - intros a b c Ha Hb Hc.
    destruct (Hcmp a b Ha Hb) as (? & ? & ? & ? & ->).
    destruct (Hcmp b c Hb Hc) as (? & ? & ? & ? & ->).
    destruct (Hcmp a c Ha Hc) as (? & ? & ? & ? & ->). simplify_eq/=. lia.
  - intros a b c Ha Hb Hc.
    destruct (Hcmp a b Ha Hb) as (? & ? & ? & ? & ->).
    destruct (Hcmp b c Hb Hc) as (? & ? & ? & ? & ->).
    destruct (Hcmp a c Ha Hc) as (? & ? & ? & ? & ->). simplify_eq/=. lia.
  - intros a b c Ha Hb Hc.
    destruct (Hcmp a b Ha Hb) as (? & ? & ? & ? & ->).
    destruct (Hcmp b c Hb Hc) as (? & ? & ? & ? & ->).
    destruct (Hcmp a c Ha Hc) as (? & ? & ? & ? & ->). simplify_eq/=. lia.
Qed.



(** A run of [buildThread] that returns: the root request was answered, the
    loop ended in some state, and the result is the sorted accumulator with
    the advisory computed from the root. *)
Lemma buildThread_Done now tweetId maxResults fields rootResponse pages rounds thread :
  buildThread now tweetId maxResults fields rootResponse pages = (rounds, Done thread) →
  ∃ root st,
    rootResponse = Return root
    ∧ paginate (conversationIdOf (TwitterV2Response.data root)) fields
               (Z.min maxResults MAX_THREAD_TWEETS) pages
               (initialLoop tweetId (mergeSingleTweet root)) = (rounds, Done st)
    ∧ thread = {| ThreadResult.tweets := Array_sort byCreatedAt (Loop.allTweets st);
                  ThreadResult.ageWarning :=
                    ageWarningOf now (TwitterV2Response.data root) |}.
Proof.
  unfold buildThread. destruct rootResponse as [root|e]; [|done].
  destruct (paginate _ _ _ _ _) as [rounds' [st|e|]] eqn:Hp; intros [= <- <-].
  by exists root, st.
Qed.


(** C4 (amended): the returned items are the seed and the discovered items;
    the identifiers of the discovered items are pairwise distinct and none of
    them is the requested identifier, with which the seen-set starts.  So
    when the seed's identifier is the requested one, the identifiers of the
    returned items are pairwise distinct and the seed appears exactly once,
    whatever the pages repeat. *)
Theorem buildThread_no_duplicate_ids
    now tweetId maxResults fields (root : TwitterV2Response.t Tweet.t) pages rounds thread :
  buildThread now tweetId maxResults fields (Return root) pages = (rounds, Done thread) →
  ∃ discovered,
    ThreadResult.tweets thread ≡ₚ mergeSingleTweet root :: discovered
    ∧ NoDup (EnrichedTweet.id <$> discovered)
    ∧ tweetId ∉ EnrichedTweet.id <$> discovered
    ∧ (Tweet.id (TwitterV2Response.data root) = tweetId →
       NoDup (EnrichedTweet.id <$> ThreadResult.tweets thread)
       ∧ mergeSingleTweet root ∈ ThreadResult.tweets thread
       ∧ length (filter (λ e, EnrichedTweet.id e = tweetId)
                        (ThreadResult.tweets thread)) = 1%nat).
Proof.
  intros (root' & st & [= <-] & Hp & ->)%buildThread_Done. simpl.
  apply (paginate_invariant tweetId (mergeSingleTweet root)) in Hp
    as (discovered & Hall & Hnd & _ & _ & Hfresh); [|apply initialLoop_invariant].
  assert (Array_sort byCreatedAt (Loop.allTweets st)
          ≡ₚ mergeSingleTweet root :: discovered) as Hperm
    by (rewrite <-Hall; apply Array_sort_Permutation).
  exists discovered. split_and!; [done|done|done|].
  intros Hid. rewrite <-mergeSingleTweet_id in Hid.
  assert (NoDup (EnrichedTweet.id <$> Array_sort byCreatedAt (Loop.allTweets st))) as Hnd'.
  { rewrite Hperm, fmap_cons. apply NoDup_cons. by rewrite Hid. }
  assert (mergeSingleTweet root ∈ Array_sort byCreatedAt (Loop.allTweets st)) as Hin.
  { rewrite Hperm. set_solver. }
  split_and!; [done|done|].
  rewrite <-Hid.
  apply list_elem_of_split in Hin as (l1 & l2 & Heq). rewrite Heq in Hnd' |- *.
  rewrite fmap_app, fmap_cons in Hnd'.
  apply NoDup_app in Hnd' as (_ & Hl1 & [Hl2 _]%NoDup_cons).
  rewrite filter_app, filter_cons_True by done.
  rewrite (filter_none _ l1), (filter_none _ l2); [done| |].
  - intros e He Heid. apply Hl2. rewrite <-Heid.
    apply list_elem_of_fmap. eauto.
  - intros e He Heid. apply (Hl1 (EnrichedTweet.id e)).
    + apply list_elem_of_fmap. eauto.
    + rewrite Heid. set_solver.
Qed.

Lemma addUnseen_count st tweet :
  Loop.fetched st = accumulatedBeyondSeed st →
  Loop.fetched (addUnseen st tweet) = accumulatedBeyondSeed (addUnseen st tweet).
Proof.
  unfold addUnseen, accumulatedBeyondSeed. case_bool_decide; simpl; [done|].
  rewrite length_app. simpl. lia.
Qed.

Lemma absorbPage_count st page :
  Loop.fetched st = accumulatedBeyondSeed st →
  Loop.fetched (absorbPage st page) = accumulatedBeyondSeed (absorbPage st page).
Proof.
  intros Hst. unfold absorbPage, accumulatedBeyondSeed. simpl.
  destruct (TwitterV2ListResponse.data page); [|done].
  generalize (mergeTweetList page). intros tweets. revert st Hst.
  induction tweets as [|t ts IH]; intros st Hst; simpl; [done|].
  by apply IH, addUnseen_count.
Qed.

(** The state in which each search request is sent counts in [fetched] the
    items accumulated beyond the seed, and its accumulator extends the
    initial one. *)
Lemma paginate_round_states conversationId fields cap pages st rounds run :
  paginate conversationId fields cap pages st = (rounds, run) →
  Loop.fetched st = accumulatedBeyondSeed st →
  ∀ k stk params, rounds !! k = Some (stk, params) →
    Loop.fetched stk = accumulatedBeyondSeed stk
    ∧ ∃ more, Loop.allTweets stk = Loop.allTweets st ++ more.
Proof.
  intros Hp Hst k. induction k as [|k IH]; intros stk params Hk.
  - destruct (paginate_rounds _ _ _ _ _ _ _ Hp _ _ _ Hk) as (_ & _ & H0 & _).
    rewrite (H0 eq_refl). split; [done|]. exists []. by rewrite app_nil_r.
  - destruct (paginate_rounds _ _ _ _ _ _ _ Hp _ _ _ Hk) as (_ & _ & _ & HS).
    destruct (HS k eq_refl) as (st0 & params0 & page & Hk0 & _ & -> & _).
    destruct (IH _ _ Hk0) as [Hcount [more Hmore]].
    split; [by apply absorbPage_count|].
    destruct (absorbPage_extends st0 page) as [more' ->].
    exists (more ++ more'). by rewrite Hmore, app_assoc.
Qed.

(** C5: every search request is sent while fewer items than the cap
    min(maxResults, 200) are accumulated beyond the seed; every search
    request after the first follows a page that returned a pagination cursor
    and at least one item; so no request follows a halting condition.  With
    maxResults = 1, every search request is sent while nothing beyond the
    seed is accumulated. *)
Theorem buildThread_halting
    now tweetId maxResults fields (root : TwitterV2Response.t Tweet.t) pages
    (k : nat) st params :
  (buildThread now tweetId maxResults fields (Return root) pages).1 !! k
    = Some (st, params) →
  accumulatedBeyondSeed st < Z.min maxResults 200
  ∧ (k = 0%nat → st = initialLoop tweetId (mergeSingleTweet root))
  ∧ (∀ k', k = S k' →
       ∃ st0 params0 page,
         (buildThread now tweetId maxResults fields (Return root) pages).1 !! k'
           = Some (st0, params0)
         ∧ pages !! k' = Some (Return page)
         ∧ st = absorbPage st0 page
         ∧ truthy (TwitterV2ListResponse.meta page ≫= TwitterMeta.next_token) = true
         ∧ ∃ item items, TwitterV2ListResponse.data page = Some (item :: items))
  ∧ (maxResults = 1 →
       accumulatedBeyondSeed st = 0
       ∧ Loop.allTweets st = [mergeSingleTweet root]).
Proof.
  unfold buildThread.
  destruct (paginate _ _ _ pages _) as [rounds run] eqn:Hp.
  assert ((let '(rounds0, run0) := (rounds, run) in
           match run0 with
           | Done st0 =>
               (rounds0,
                Done {| ThreadResult.tweets := Array_sort byCreatedAt (Loop.allTweets st0);
                        ThreadResult.ageWarning :=
                          ageWarningOf now (TwitterV2Response.data root) |})
           | Failed e => (rounds0, Failed e)
           | Awaiting => (rounds0, Awaiting)
           end).1 = rounds) as -> by by destruct run.
  intros Hk.
  destruct (paginate_rounds _ _ _ _ _ _ _ Hp _ _ _ Hk) as (Hlt & _ & H0 & HS).
  destruct (paginate_round_states _ _ _ _ _ _ _ Hp eq_refl _ _ _ Hk)
    as [Hcount [more Hmore]].
  rewrite <-Hcount. unfold MAX_THREAD_TWEETS in Hlt.
  split_and!; [done|done| |].
  - intros k' Hk'. destruct (HS k' Hk') as (st0 & params0 & page & ? & ? & -> & Hb).
    exists st0, params0, page. split_and!; try done.
    + unfold breaks in Hb. apply orb_false_elim in Hb as [Hb _].
      by apply negb_false_iff in Hb.
    + unfold breaks in Hb. apply orb_false_elim in Hb as [_ Hb].
      unfold noItems in Hb.
      destruct (TwitterV2ListResponse.data page) as [[|item items]|]; try done.
      by exists item, items.
  - intros ->. assert (Loop.fetched st = 0) as Hz.
    { pose proof (f_equal Z.of_nat (f_equal length Hmore)) as Hlen.
      rewrite length_app in Hlen. simpl in Hlen.
      unfold accumulatedBeyondSeed in Hcount. lia. }
    split; [done|].
    rewrite Hcount in Hz. unfold accumulatedBeyondSeed in Hz.
    rewrite Hmore in Hz |- *. rewrite length_app in Hz. simpl in *.
    destruct more; [done|]. simpl in Hz. lia.
Qed.

(** C6: for a seed with a creation time, the result carries the advisory
    exactly when that time lies more than 7 x 24 x 3600 x 1000 ms before the
    evaluation time; a seed without a creation time never gets it; and the
    requests sent and the items returned are the same at every evaluation
    time. *)
Theorem buildThread_staleness
    now tweetId maxResults fields (root : TwitterV2Response.t Tweet.t) pages
    rounds thread :
  buildThread now tweetId maxResults fields (Return root) pages = (rounds, Done thread) →
  (∀ created,
     timestamp (Tweet.created_at (TwitterV2Response.data root)) = Some created →
     (ThreadResult.ageWarning thread = Some AGE_WARNING ↔
        now - created > 7 * 24 * 3600 * 1000)
     ∧ (ThreadResult.ageWarning thread = None ↔
          now - created ≤ 7 * 24 * 3600 * 1000))
  ∧ (timestamp (Tweet.created_at (TwitterV2Response.data root)) = None →
     ThreadResult.ageWarning thread = None)
  ∧ (∀ now',
       buildThread now' tweetId maxResults fields (Return root) pages
       = (rounds,
          Done {| ThreadResult.tweets := ThreadResult.tweets thread;
                  ThreadResult.ageWarning :=
                    ageWarningOf now' (TwitterV2Response.data root) |})).
Proof.
  intros Hrun.
  destruct (buildThread_Done _ _ _ _ _ _ _ _ Hrun)
    as (root' & st & [= <-] & Hp & ->).
  simpl. unfold ageWarningOf, timestamp, SEVEN_DAYS_MS. split_and!.
  - intros created Hc.
    destruct (truthy (Tweet.created_at (TwitterV2Response.data root))); [|done].
    rewrite Hc. destruct (Z.ltb_spec (7 * 24 * 60 * 60 * 1000) (now - created));
      split; split; intros; try done; lia.
  - intros Hc.
    destruct (truthy (Tweet.created_at (TwitterV2Response.data root))); [|done].
    by rewrite Hc.
  - intros now'. unfold buildThread. by rewrite Hp.
Qed.

Lemma searchParams_query conversationId fields cap st :
  searchParams conversationId fields cap st !! "query"
  = Some ("conversation_id:" +:+ conversationId).
Proof.
  unfold searchParams. destruct (Loop.nextToken st) as [token|]; [|done].
  destruct (truthy (Some token)); [|done].
  by rewrite lookup_insert_ne.
Qed.

(** C9: the grouping identifier is the fetched item's [conversation_id]
    when it has one and its own identifier otherwise; every search request
    of the thread is scoped to that grouping; the search request of the
    replies operation is scoped to that grouping and to replies to the
    requested item, with a page size of min(maxResults, 100), which is at
    most 100. *)
Theorem conversation_scoped_search
    now tweetId maxResults fields (root : TwitterV2Response.t Tweet.t) pages response :
  let grouping :=
    default (Tweet.id (TwitterV2Response.data root))
            (Tweet.conversation_id (TwitterV2Response.data root)) in
  conversationIdOf (TwitterV2Response.data root) = grouping
  ∧ (∀ st params,
       (st, params) ∈ (buildThread now tweetId maxResults fields (Return root) pages).1 →
       params !! "query" = Some ("conversation_id:" +:+ grouping))
  ∧ (∃ params,
       (getReplies tweetId maxResults (Return root) response).1
       = [("/tweets/" +:+ tweetId, defaultTweetParams);
          ("/tweets/search/recent", params)]
       ∧ params !! "query"
         = Some ("conversation_id:" +:+ grouping
                 +:+ " in_reply_to_tweet_id:" +:+ tweetId)
       ∧ params !! "max_results" = Some (pretty (Z.min maxResults 100))
       ∧ Z.min maxResults 100 ≤ 100).
Proof.
  intros grouping.
  assert (conversationIdOf (TwitterV2Response.data root) = grouping) as Hg.
  { unfold grouping, conversationIdOf.
    by destruct (Tweet.conversation_id (TwitterV2Response.data root)). }
  split_and!; [done| |].
  - unfold buildThread. rewrite Hg.
    destruct (paginate _ _ _ pages _) as [rounds run] eqn:Hp.
    intros st params Hin.
    assert ((st, params) ∈ rounds) as Hin' by by destruct run.
    apply list_elem_of_lookup in Hin' as [k Hk].
    destruct (paginate_rounds _ _ _ _ _ _ _ Hp _ _ _ Hk) as (_ & -> & _).
    apply searchParams_query.
  - unfold getReplies. rewrite Hg. eexists. split_and!.
    + by destruct response.
    + by rewrite lookup_insert_ne.
    + by rewrite lookup_insert_eq.
    + lia.
Qed.

End ThreadProperties.

(** A run returns whenever the root request and every search request are
    answered and the last page of the script carries no pagination cursor. *)
Lemma paginate_returns conversationId fields cap
    (pages : list (TwitterV2ListResponse.t Tweet.t)) (last : TwitterV2ListResponse.t Tweet.t) st :
  truthy (TwitterV2ListResponse.meta last ≫= TwitterMeta.next_token) = false →
  ∃ rounds st',
    paginate conversationId fields cap (Return <$> (pages ++ [last])) st
    = (rounds, Done st').
Proof.
  intros Hlast. revert st. induction pages as [|page pages IH]; intros st.
  - change (Return <$> [] ++ [last]) with [Return (A := TwitterV2ListResponse.t Tweet.t) last].
    cbn [paginate].
    destruct (Loop.fetched st <? cap); [|by eexists _, _].
    unfold breaks. simpl. rewrite Hlast. simpl. by eexists _, _.
  - change (Return <$> (page :: pages) ++ [last])
      with (Return page :: (Return <$> pages ++ [last])).
    cbn [paginate].
    destruct (Loop.fetched st <? cap); [|by eexists _, _].
    destruct (breaks (absorbPage st page) page); [by eexists _, _|].
    destruct (IH (absorbPage st page)) as (rounds & st' & ->).
    by eexists _, _.
Qed.

Lemma buildThread_returns {rt : Runtime} now tweetId maxResults fields root
    (pages : list (TwitterV2ListResponse.t Tweet.t)) (last : TwitterV2ListResponse.t Tweet.t) :
  truthy (TwitterV2ListResponse.meta last ≫= TwitterMeta.next_token) = false →
  ∃ rounds thread,
    buildThread now tweetId maxResults fields (Return root)
                (Return <$> (pages ++ [last]))
    = (rounds, Done thread).
Proof.
  intros Hlast. unfold buildThread.
  edestruct (paginate_returns (conversationIdOf (TwitterV2Response.data root)) fields
              (Z.min maxResults MAX_THREAD_TWEETS) pages last) as (rounds & st' & ->);
    [done|]. by eexists _, _.
Qed.

(** ** The properties on the runs of the thread tests *)



(** C4, as stated, fails: the seen-set starts with the requested identifier.
    When the root response carries another identifier than the requested
    one and a search page returns the seed, the seed is accumulated a second
    time. *)
Lemma buildThread_duplicate_seed :
  let thread :=
    {| ThreadResult.tweets :=
         [enriched sampleRoot;
          enriched sampleRoot;
          enriched (reply "r1" "Reply 1" (Some "1970-01-01T00:00:00.003Z"))];
       ThreadResult.ageWarning := None |} in
  (buildThread (rt := sampleRuntime) 0 "tweet_alias" 50 sampleFields
               (Return (rootEnvelope sampleRoot)) [Return repeatingPage]).2 = Done thread
  ∧ EnrichedTweet.id <$> ThreadResult.tweets thread = ["tweet_root"; "tweet_root"; "r1"]
  ∧ ¬ NoDup (EnrichedTweet.id <$> ThreadResult.tweets thread).
Proof.
  split_and!.
  - by vm_compute.
  - by vm_compute.
  - intros Hnd. apply NoDup_cons in Hnd as [Hnotin _]. apply Hnotin. set_solver.
Qed.

Lemma buildThread_no_duplicate_ids_witness :
  ∃ discovered,
    [enriched sampleRoot;
     enriched (reply "r1" "Reply 1" (Some "1970-01-01T00:00:00.003Z"))]
    ≡ₚ enriched sampleRoot :: discovered
    ∧ NoDup (EnrichedTweet.id <$> discovered)
    ∧ "tweet_root" ∉ EnrichedTweet.id <$> discovered
    ∧ ("tweet_root" = "tweet_root" →
       NoDup (EnrichedTweet.id
                <$> [enriched sampleRoot;
                     enriched (reply "r1" "Reply 1" (Some "1970-01-01T00:00:00.003Z"))])
       ∧ enriched sampleRoot
         ∈ [enriched sampleRoot;
            enriched (reply "r1" "Reply 1" (Some "1970-01-01T00:00:00.003Z"))]
       ∧ length (filter (λ e, EnrichedTweet.id e = "tweet_root")
                   [enriched sampleRoot;
                    enriched (reply "r1" "Reply 1" (Some "1970-01-01T00:00:00.003Z"))])
         = 1%nat).
Proof.
  exact (buildThread_no_duplicate_ids (rt := sampleRuntime)
           0 "tweet_root" 50 sampleFields (rootEnvelope sampleRoot)
           [Return repeatingPage]
           [(initialLoop "tweet_root" (enriched sampleRoot),
             searchParams "tweet_root" sampleFields 50
                          (initialLoop "tweet_root" (enriched sampleRoot)))]
           {| ThreadResult.tweets :=
                [enriched sampleRoot;
                 enriched (reply "r1" "Reply 1" (Some "1970-01-01T00:00:00.003Z"))];
              ThreadResult.ageWarning := None |}
           eq_refl).
Defined.

Lemma buildThread_halting_witness :
  accumulatedBeyondSeed (absorbPage (initialLoop "tweet_root" (enriched sampleRoot)) pageOne)
  < Z.min 50 200.
Proof.
  exact (proj1 (buildThread_halting (rt := sampleRuntime)
                  0 "tweet_root" 50 sampleFields (rootEnvelope sampleRoot)
                  [Return pageOne; Return pageTwo] 1
                  (absorbPage (initialLoop "tweet_root" (enriched sampleRoot)) pageOne)
                  (searchParams "tweet_root" sampleFields 50
                     (absorbPage (initialLoop "tweet_root" (enriched sampleRoot)) pageOne))
                  eq_refl)).
Defined.

Lemma buildThread_staleness_witness :
  (Some AGE_WARNING = Some AGE_WARNING ↔ 691200001 - 1 > 7 * 24 * 3600 * 1000)
  ∧ (Some AGE_WARNING = None ↔ 691200001 - 1 ≤ 7 * 24 * 3600 * 1000).
Proof.
  exact (proj1 (buildThread_staleness (rt := sampleRuntime)
                  691200001 "tweet_root" 50 sampleFields (rootEnvelope sampleRoot)
                  [Return (searchPage [] None)]
                  [(initialLoop "tweet_root" (enriched sampleRoot),
                    searchParams "tweet_root" sampleFields 50
                                 (initialLoop "tweet_root" (enriched sampleRoot)))]
                  {| ThreadResult.tweets := [enriched sampleRoot];
                     ThreadResult.ageWarning := Some AGE_WARNING |}
                  eq_refl) 1 eq_refl).
Defined.

(** * Further properties *)

(** ** Resolution against the includes *)

(** Looking a key up in the map of a keyed array finds the last element of
    the array that has the key. *)
Lemma Map_new_lookup_last {V} (key : V → string) (l : list V) (k : string) :
  Map_new (Some ((λ v, (key v, v)) <$> l)) !! k = last (filter (λ v, key v = k) l).
Proof.
  induction l as [|x l IH] using rev_ind; [done|].
  unfold Map_new in *. rewrite fmap_app, foldl_app, filter_app. simpl.
  destruct (decide (key x = k)) as [<-|Hne].
  - rewrite lookup_insert_eq, filter_cons_True, filter_nil by done.
    by rewrite last_snoc.
  - rewrite lookup_insert_ne, filter_cons_False, filter_nil, app_nil_r by done.
    apply IH.
Qed.

Lemma last_filter_elem_of {A} (P : A → Prop) `{!∀ x, Decision (P x)}
    (l : list A) (x : A) :
  last (filter P l) = Some x → x ∈ l ∧ P x.
Proof.
  intros Hlast. apply last_Some in Hlast as [l' Hl'].
  assert (x ∈ filter P l) as Hin by (rewrite Hl'; set_solver).
  apply list_elem_of_filter in Hin. tauto.
Qed.

(** X1: the author resolved for an item with a non-empty [author_id] is the
    last actor of the includes array that has this identifier; an item whose
    [author_id] is missing or empty gets none; and a resolved author is
    always an actor of the includes whose identifier is the item's
    [author_id]. *)
Theorem mergeSingleTweet_author (tweet : Tweet.t) (includes : option TwitterIncludes.t) :
  let e := mergeSingleTweet {| TwitterV2Response.data := tweet;
                               TwitterV2Response.includes := includes |} in
  let users := default [] (includes ≫= TwitterIncludes.users) in
  (∀ a, Tweet.author_id tweet = Some a → a ≠ "" →
        EnrichedTweet.author e = last (filter (λ u, User.id u = a) users))
  ∧ (Tweet.author_id tweet = None ∨ Tweet.author_id tweet = Some "" →
     EnrichedTweet.author e = None)
  ∧ (∀ u, EnrichedTweet.author e = Some u →
          u ∈ users ∧ Tweet.author_id tweet = Some (User.id u)).
Proof.
  intros e users.
  assert (Hres : ∀ a, Tweet.author_id tweet = Some a → a ≠ "" →
            EnrichedTweet.author e = last (filter (λ u, User.id u = a) users)).
  { intros a Ha Hne. unfold e. rewrite mergeSingleTweet_eq. simpl.
    rewrite Ha. simpl. apply String.eqb_neq in Hne. rewrite Hne. simpl.
    unfold users. destruct (includes ≫= TwitterIncludes.users) as [us|]; simpl.
    - apply (Map_new_lookup_last User.id).
    - done. }
  split_and!; [done| |].
  - unfold e. rewrite mergeSingleTweet_eq. simpl. by intros [-> | ->].
  - intros u Hu. destruct (Tweet.author_id tweet) as [a|] eqn:Ha.
    + destruct (decide (a = "")) as [->|Hne].
      * unfold e in Hu. rewrite mergeSingleTweet_eq in Hu. simpl in Hu.
        by rewrite Ha in Hu.
      * rewrite (Hres a eq_refl Hne) in Hu.
        apply last_filter_elem_of in Hu as [? <-]. done.
    + unfold e in Hu. rewrite mergeSingleTweet_eq in Hu. simpl in Hu.
      by rewrite Ha in Hu.
Qed.

(** X2: only the first reference of an item is resolved, to the last item
    of the includes array that has its identifier; an item with no
    references, or with an empty list of them, gets none; and a resolved
    reference is always an item of the includes whose identifier is that of
    the first reference. *)
Theorem mergeSingleTweet_referenced (tweet : Tweet.t) (includes : option TwitterIncludes.t) :
  let e := mergeSingleTweet {| TwitterV2Response.data := tweet;
                               TwitterV2Response.includes := includes |} in
  let tweets := default [] (includes ≫= TwitterIncludes.tweets) in
  (∀ r others, Tweet.referenced_tweets tweet = Some (r :: others) →
        EnrichedTweet.referenced_tweet_data e
        = last (filter (λ t, Tweet.id t = ReferencedTweet.id r) tweets))
  ∧ (Tweet.referenced_tweets tweet = None ∨ Tweet.referenced_tweets tweet = Some [] →
     EnrichedTweet.referenced_tweet_data e = None)
  ∧ (∀ t, EnrichedTweet.referenced_tweet_data e = Some t →
          t ∈ tweets
          ∧ ∃ r others, Tweet.referenced_tweets tweet = Some (r :: others)
                        ∧ ReferencedTweet.id r = Tweet.id t).
Proof.
  intros e tweets.
  assert (Hres : ∀ r others, Tweet.referenced_tweets tweet = Some (r :: others) →
            EnrichedTweet.referenced_tweet_data e
            = last (filter (λ t, Tweet.id t = ReferencedTweet.id r) tweets)).
  { intros r others Hr. unfold e. rewrite mergeSingleTweet_eq. simpl.
    rewrite Hr. simpl.
    unfold tweets. destruct (includes ≫= TwitterIncludes.tweets) as [ts|]; simpl.
    - apply (Map_new_lookup_last Tweet.id).
    - done. }
  split_and!; [done| |].
  - unfold e. rewrite mergeSingleTweet_eq. simpl. by intros [-> | ->].
  - intros t Ht. destruct (Tweet.referenced_tweets tweet) as [[|r others]|] eqn:Hr.
    + unfold e in Ht. rewrite mergeSingleTweet_eq in Ht. simpl in Ht.
      by rewrite Hr in Ht.
    + rewrite (Hres r others eq_refl) in Ht.
      apply last_filter_elem_of in Ht as [? Hid]. split; [done|].
      by exists r, others.
    + unfold e in Ht. rewrite mergeSingleTweet_eq in Ht. simpl in Ht.
      by rewrite Hr in Ht.
Qed.

(** X3: merging a list response gives, item by item and in the order of
    [data], what merging a single response with the same includes gives. *)
Theorem mergeTweetList_itemwise
    (data : list Tweet.t) (includes : option TwitterIncludes.t)
    (meta : option TwitterMeta.t) :
  mergeTweetList {| TwitterV2ListResponse.data := Some data;
                    TwitterV2ListResponse.includes := includes;
                    TwitterV2ListResponse.meta := meta |}
  = (λ tweet, mergeSingleTweet {| TwitterV2Response.data := tweet;
                                  TwitterV2Response.includes := includes |}) <$> data
  ∧ length (mergeTweetList {| TwitterV2ListResponse.data := Some data;
                              TwitterV2ListResponse.includes := includes;
                              TwitterV2ListResponse.meta := meta |}) = length data.
Proof.
  rewrite mergeTweetList_Some. split; [|by rewrite length_fmap].
  apply list_fmap_ext. intros i t _. by rewrite mergeSingleTweet_eq.
Qed.

(** ** The classifier and the attempt *)

Section MoreClientProperties.
Context {rt : Runtime}.

(** X4: when the body parses to JSON that is not an object (null, a
    boolean, a number, a string or an array), the detail text is the raw
    body. *)
Theorem error_detail_not_an_object (body : string) (parsed : json) :
  JSON_parse body = Return parsed →
  (∀ props, parsed ≠ JObject props) →
  error_detail body = body.
Proof.
  intros Hparse Hobj. unfold error_detail, structured_detail. rewrite Hparse.
  destruct parsed; try done. by destruct (Hobj props).
Qed.


End MoreClientProperties.

(** ** The search requests of a thread, and what a thread holds *)

Lemma searchParams_max_results conversationId fields cap st :
  searchParams conversationId fields cap st !! "max_results"
  = Some (pretty (Z.max (Z.min 100 (cap - Loop.fetched st)) 10)).
Proof.
  unfold searchParams. destruct (Loop.nextToken st) as [token|]; [|done].
  destruct (truthy (Some token)); [|done].
  by rewrite lookup_insert_ne.
Qed.

Lemma searchParams_fields conversationId fields cap st :
  searchParams conversationId fields cap st !! "tweet.fields"
  = Some (ThreadFieldParams.tweetFields fields)
  ∧ searchParams conversationId fields cap st !! "expansions"
    = Some (ThreadFieldParams.expansions fields)
  ∧ searchParams conversationId fields cap st !! "user.fields"
    = Some (ThreadFieldParams.userFields fields).
Proof.
  unfold searchParams. destruct (Loop.nextToken st) as [token|]; [|done].
  destruct (truthy (Some token)); [|done].
  by rewrite !lookup_insert_ne.
Qed.

Lemma searchParams_next_token conversationId fields cap st :
  searchParams conversationId fields cap st !! "next_token"
  = if truthy (Loop.nextToken st) then Loop.nextToken st else None.
Proof.
  unfold searchParams. destruct (Loop.nextToken st) as [token|]; [|done].
  destruct (truthy (Some token)); [|done].
  by rewrite lookup_insert_eq.
Qed.

Section MoreThreadProperties.
Context {rt : Runtime}.

(** The search requests of [buildThread] are those of its loop. *)
Lemma buildThread_rounds now tweetId maxResults fields root pages :
  (buildThread now tweetId maxResults fields (Return root) pages).1
  = (paginate (conversationIdOf (TwitterV2Response.data root)) fields
              (Z.min maxResults MAX_THREAD_TWEETS) pages
              (initialLoop tweetId (mergeSingleTweet root))).1.
Proof.
  unfold buildThread. by destruct (paginate _ _ _ _ _) as [rounds [st|e|]].
Qed.

(** X6: every search request of a thread asks for
    max(min(100, cap - accumulated), 10) items, a number between 10 and 100;
    the first one carries no cursor and every later one carries the cursor
    of the page before it; all carry the caller's field selection. *)
Theorem buildThread_search_requests
    now tweetId maxResults fields (root : TwitterV2Response.t Tweet.t) pages
    (k : nat) st params :
  (buildThread now tweetId maxResults fields (Return root) pages).1 !! k
    = Some (st, params) →
  let pageSize :=
    Z.max (Z.min 100 (Z.min maxResults 200 - accumulatedBeyondSeed st)) 10 in
  params !! "max_results" = Some (pretty pageSize)
  ∧ 10 ≤ pageSize ≤ 100
  ∧ (k = 0%nat → params !! "next_token" = None)
  ∧ (∀ k' page, k = S k' → pages !! k' = Some (Return page) →
       params !! "next_token"
       = TwitterV2ListResponse.meta page ≫= TwitterMeta.next_token
       ∧ params !! "next_token" ≠ Some "")
  ∧ params !! "tweet.fields" = Some (ThreadFieldParams.tweetFields fields)
  ∧ params !! "expansions" = Some (ThreadFieldParams.expansions fields)
  ∧ params !! "user.fields" = Some (ThreadFieldParams.userFields fields).
Proof.
  rewrite buildThread_rounds.
  destruct (paginate _ _ _ pages _) as [rounds run] eqn:Hp. simpl. intros Hk.
  destruct (paginate_rounds _ _ _ _ _ _ _ Hp _ _ _ Hk) as (Hlt & -> & H0 & HS).
  destruct (paginate_round_states _ _ _ _ _ _ _ Hp eq_refl _ _ _ Hk) as [Hcount _].
  destruct (searchParams_fields (conversationIdOf (TwitterV2Response.data root))
              fields (Z.min maxResults MAX_THREAD_TWEETS) st) as (Hf1 & Hf2 & Hf3).
  rewrite <-Hcount. split_and!; try done.
  - apply searchParams_max_results.
  - lia.
  - lia.
  - intros ->. rewrite searchParams_next_token. by rewrite (H0 eq_refl).
  - intros k' page -> Hpage.
    destruct (HS k' eq_refl) as (st0 & params0 & page' & _ & Hpage' & -> & Hb).
    rewrite Hpage in Hpage'. injection Hpage' as <-.
    rewrite searchParams_next_token.
    unfold breaks in Hb. apply orb_false_elim in Hb as [Hb _].
    apply negb_false_iff in Hb. rewrite Hb. split; [done|].
    simpl in *. intros Heq. rewrite Heq in Hb. done.
Qed.

Lemma foldl_addUnseen_fetched tweets st :
  Loop.fetched st ≤ Loop.fetched (foldl addUnseen st tweets)
                  ≤ Loop.fetched st + Z.of_nat (length tweets).
Proof.
  revert st. induction tweets as [|t ts IH]; intros st; simpl; [lia|].
  specialize (IH (addUnseen st t)). unfold addUnseen in *.
  case_bool_decide; simpl in *; lia.
Qed.

Lemma absorbPage_fetched st page :
  Loop.fetched st ≤ Loop.fetched (absorbPage st page)
                  ≤ Loop.fetched st
                    + Z.of_nat (length (default [] (TwitterV2ListResponse.data page))).
Proof.
  unfold absorbPage. simpl.
  destruct page as [[data|] includes meta]; simpl; [|lia].
  pose proof (foldl_addUnseen_fetched
                (mergeTweetList {| TwitterV2ListResponse.data := Some data;
                                   TwitterV2ListResponse.includes := includes;
                                   TwitterV2ListResponse.meta := meta |}) st) as H.
  rewrite mergeTweetList_Some, length_fmap in H. done.
Qed.

(** How a loop that returns ended: without a request, or by absorbing the
    page that answered its last request. *)
Lemma paginate_final conversationId fields cap pages st rounds st' :
  paginate conversationId fields cap pages st = (rounds, Done st') →
  (rounds = [] ∧ st' = st ∧ cap ≤ Loop.fetched st)
  ∨ (Loop.fetched st < cap
     ∧ ∃ stl paramsl page,
         last rounds = Some (stl, paramsl)
         ∧ pages !! (length rounds - 1)%nat = Some (Return page)
         ∧ st' = absorbPage stl page
         ∧ (breaks st' page = true ∨ cap ≤ Loop.fetched st')).
Proof.
  revert st rounds. induction pages as [|[page|e] pages IH]; intros st rounds; simpl;
    destruct (Z.ltb_spec (Loop.fetched st) cap) as [Hlt|Hge];
    try (intros [= <- <-]; left; by split_and!); try done.
  destruct (breaks (absorbPage st page) page) eqn:Hb.
  - intros [= <- <-]. right. split; [done|]. eexists st, _, page. by split_and!; [| | |left].
  - destruct (paginate _ _ _ pages (absorbPage st page)) as [rounds' run] eqn:Hp.
    intros [= <- ->]. right. split; [done|].
    destruct (IH _ _ Hp) as [(-> & -> & Hcap)|(Hlt' & stl & paramsl & pagel & Hl & Hpl & -> & Hend)].
    + eexists st, _, page. by split_and!; [| | |right].
    + exists stl, paramsl, pagel. split_and!; [|  |done|done].
      * destruct rounds'; [done|]. done.
      * destruct rounds' as [|r rounds']; [done|]. simpl in *.
        by rewrite Nat.sub_0_r in *.
Qed.

(** X7: the cap can be exceeded, by less than the size of the last page:
    with a cap of zero or less no search request is sent and the thread is
    the seed alone; otherwise the number of items beyond the seed is below
    the cap plus the number of items of the page that answered the last
    request. *)
Theorem buildThread_size
    now tweetId maxResults fields (root : TwitterV2Response.t Tweet.t) pages
    rounds thread :
  buildThread now tweetId maxResults fields (Return root) pages = (rounds, Done thread) →
  let beyond := Z.of_nat (length (ThreadResult.tweets thread)) - 1 in
  (Z.min maxResults 200 ≤ 0 →
     rounds = [] ∧ ThreadResult.tweets thread = [mergeSingleTweet root])
  ∧ (0 < Z.min maxResults 200 →
     ∃ page, pages !! (length rounds - 1)%nat = Some (Return page)
             ∧ (1 ≤ length rounds)%nat
             ∧ 0 ≤ beyond
                 < Z.min maxResults 200
                   + Z.of_nat (length (default [] (TwitterV2ListResponse.data page)))).
Proof.
  intros (root' & st & [= <-] & Hp & ->)%buildThread_Done. simpl.
  rewrite (Permutation_length (Array_sort_Permutation byCreatedAt (Loop.allTweets st))).
  unfold MAX_THREAD_TWEETS in Hp.
  destruct (paginate_final _ _ _ _ _ _ _ Hp)
    as [(-> & -> & Hcap)|(Hlt & stl & paramsl & page & Hl & Hpl & -> & Hend)].
  - simpl in *. rewrite Array_sort_singleton. split; [done|]. lia.
  - simpl in Hlt. split; [lia|]. intros _. exists page.
    assert (rounds !! (length rounds - 1)%nat = Some (stl, paramsl)) as Hk.
    { rewrite last_lookup in Hl.
      by replace (length rounds - 1)%nat with (Nat.pred (length rounds)) by lia. }
    destruct (paginate_rounds _ _ _ _ _ _ _ Hp _ _ _ Hk) as (Hltl & _).
    destruct (paginate_round_states _ _ _ _ _ _ _ Hp eq_refl _ _ _ Hk)
      as [Hcount [more Hmore]].
    apply (f_equal length) in Hmore. rewrite length_app in Hmore. simpl in Hmore.
    pose proof (absorbPage_fetched stl page) as Hf.
    rewrite (absorbPage_count stl page Hcount) in Hf.
    unfold accumulatedBeyondSeed in Hf, Hcount.
    split_and!; [done| |lia|lia].
    destruct rounds; [done|simpl; lia].
Qed.


Lemma foldl_addUnseen_elem tweets st e :
  e ∈ Loop.allTweets (foldl addUnseen st tweets) →
  e ∈ Loop.allTweets st ∨ e ∈ tweets.
Proof.
  revert st. induction tweets as [|t ts IH]; intros st; simpl; [by left|].
  intros [He|He]%IH; [|right; set_solver].
  unfold addUnseen in He. case_bool_decide; simpl in He; [by left|].
  apply elem_of_app in He as [He|He]; [by left|]. right. set_solver.
Qed.

Lemma foldl_addUnseen_seen tweets st :
  Loop.seenIds st ⊆ Loop.seenIds (foldl addUnseen st tweets)
  ∧ ∀ t, t ∈ tweets → EnrichedTweet.id t ∈ Loop.seenIds (foldl addUnseen st tweets).
Proof.
  revert st. induction tweets as [|t ts IH]; intros st; simpl; [set_solver|].
  destruct (IH (addUnseen st t)) as [Hsub Hall].
  assert (Loop.seenIds st ⊆ Loop.seenIds (addUnseen st t)
          ∧ EnrichedTweet.id t ∈ Loop.seenIds (addUnseen st t)) as [Hs Ht].
  { unfold addUnseen. case_bool_decide; simpl; set_solver. }
  split; [set_solver|]. intros t' [->|Hin]%elem_of_cons; [set_solver|by apply Hall].
Qed.

(** Every identifier of the seen-set is the requested one or that of an
    accumulated item. *)
Lemma foldl_addUnseen_seen_sound (tweetId : string) tweets st :
  (∀ i, i ∈ Loop.seenIds st →
        i = tweetId ∨ i ∈ EnrichedTweet.id <$> Loop.allTweets st) →
  ∀ i, i ∈ Loop.seenIds (foldl addUnseen st tweets) →
       i = tweetId ∨ i ∈ EnrichedTweet.id <$> Loop.allTweets (foldl addUnseen st tweets).
Proof.
  revert st. induction tweets as [|t ts IH]; intros st Hst; simpl; [done|].
  apply IH. intros i. unfold addUnseen. case_bool_decide; simpl; [apply Hst|].
  rewrite fmap_app. intros [Hi| ->%elem_of_singleton]%elem_of_union.
  - destruct (Hst i Hi); [by left|right; set_solver].
  - right. set_solver.
Qed.

Lemma absorbPage_elem st page e :
  e ∈ Loop.allTweets (absorbPage st page) →
  e ∈ Loop.allTweets st ∨ e ∈ mergeTweetList page.
Proof.
  unfold absorbPage. simpl.
  destruct (TwitterV2ListResponse.data page) eqn:Hd; [|by left].
  apply foldl_addUnseen_elem.
Qed.

Lemma absorbPage_seen st page :
  Loop.seenIds st ⊆ Loop.seenIds (absorbPage st page)
  ∧ ∀ t, t ∈ mergeTweetList page → EnrichedTweet.id t ∈ Loop.seenIds (absorbPage st page).
Proof.
  unfold absorbPage. simpl.
  destruct (TwitterV2ListResponse.data page) eqn:Hd.
  - apply foldl_addUnseen_seen.
  - split; [done|]. unfold mergeTweetList. rewrite Hd. set_solver.
Qed.

Lemma absorbPage_seen_sound (tweetId : string) st page :
  (∀ i, i ∈ Loop.seenIds st →
        i = tweetId ∨ i ∈ EnrichedTweet.id <$> Loop.allTweets st) →
  ∀ i, i ∈ Loop.seenIds (absorbPage st page) →
       i = tweetId ∨ i ∈ EnrichedTweet.id <$> Loop.allTweets (absorbPage st page).
Proof.
  intros Hst. unfold absorbPage. simpl.
  destruct (TwitterV2ListResponse.data page); [|done].
  by apply foldl_addUnseen_seen_sound.
Qed.

(** What a loop that returns has accumulated and seen, in terms of the
    pages that answered its requests. *)
Lemma paginate_items (tweetId : string) conversationId fields cap pages st rounds st' :
  paginate conversationId fields cap pages st = (rounds, Done st') →
  (∀ e, e ∈ Loop.allTweets st' →
        e ∈ Loop.allTweets st
        ∨ ∃ k page, (k < length rounds)%nat ∧ pages !! k = Some (Return page)
                    ∧ e ∈ mergeTweetList page)
  ∧ Loop.seenIds st ⊆ Loop.seenIds st'
  ∧ (∀ k page t, (k < length rounds)%nat → pages !! k = Some (Return page) →
                 t ∈ mergeTweetList page → EnrichedTweet.id t ∈ Loop.seenIds st')
  ∧ ((∀ i, i ∈ Loop.seenIds st →
           i = tweetId ∨ i ∈ EnrichedTweet.id <$> Loop.allTweets st) →
     ∀ i, i ∈ Loop.seenIds st' →
          i = tweetId ∨ i ∈ EnrichedTweet.id <$> Loop.allTweets st').
Proof.
  revert st rounds. induction pages as [|[page|e] pages IH]; intros st rounds; simpl;
    destruct (Loop.fetched st <? cap);
    try (intros [= <- <-]; split_and!; [by left|done|simpl; intros; lia|done]);
    try done.
  assert (Hone : ∀ stp, stp = absorbPage st page →
    (∀ e, e ∈ Loop.allTweets stp →
          e ∈ Loop.allTweets st ∨ e ∈ mergeTweetList page)
    ∧ Loop.seenIds st ⊆ Loop.seenIds stp
    ∧ (∀ t, t ∈ mergeTweetList page → EnrichedTweet.id t ∈ Loop.seenIds stp)
    ∧ ((∀ i, i ∈ Loop.seenIds st →
             i = tweetId ∨ i ∈ EnrichedTweet.id <$> Loop.allTweets st) →
       ∀ i, i ∈ Loop.seenIds stp →
            i = tweetId ∨ i ∈ EnrichedTweet.id <$> Loop.allTweets stp)).
  { intros stp ->. destruct (absorbPage_seen st page). split_and!; try done.
    - apply absorbPage_elem.
    - apply absorbPage_seen_sound. }
  destruct (Hone _ eq_refl) as (He & Hsub & Hseen & Hsound).
  destruct (breaks (absorbPage st page) page).
  - intros [= <- <-]. split_and!; try done.
    + intros e [?|?]%He; [by left|]. right. exists 0%nat, page. simpl. split_and!; [lia|done|done].
    + intros [|k] page' t Hk; simpl in *; [|lia]. intros [= <-]. apply Hseen.
  - destruct (paginate _ _ _ pages (absorbPage st page)) as [rounds' run] eqn:Hp.
    intros [= <- ->].
    destruct (IH _ _ Hp) as (He' & Hsub' & Hseen' & Hsound').
    split_and!.
    + intros e [[?|?]%He|(k & page' & Hk & Hpage' & Hin)]%He'.
      * by left.
      * right. exists 0%nat, page. simpl. split_and!; [lia|done|done].
      * right. exists (S k), page'. simpl. split_and!; [lia|done|done].
    + set_solver.
    + intros [|k] page' t Hk; simpl in *.
      * intros [= <-] Hin. apply Hsub', Hseen, Hin.
      * apply Hseen'. lia.
    + intros Hst. apply Hsound', Hsound, Hst.
Qed.

(** X8: a thread invents nothing and loses nothing: every item returned is
    the seed or the enrichment of an item of a page that answered a search
    request; and the identifier of every item of such a page is the
    requested identifier or the identifier of a returned item. *)
Theorem buildThread_items
    now tweetId maxResults fields (root : TwitterV2Response.t Tweet.t) pages
    rounds thread :
  buildThread now tweetId maxResults fields (Return root) pages = (rounds, Done thread) →
  (∀ e, e ∈ ThreadResult.tweets thread →
        e = mergeSingleTweet root
        ∨ ∃ k page, (k < length rounds)%nat ∧ pages !! k = Some (Return page)
                    ∧ e ∈ mergeTweetList page)
  ∧ (∀ k page t, (k < length rounds)%nat → pages !! k = Some (Return page) →
       t ∈ default [] (TwitterV2ListResponse.data page) →
       Tweet.id t = tweetId
       ∨ Tweet.id t ∈ EnrichedTweet.id <$> ThreadResult.tweets thread).
Proof.
  intros (root' & st & [= <-] & Hp & ->)%buildThread_Done. simpl.
  destruct (paginate_items tweetId _ _ _ _ _ _ _ Hp) as (He & _ & Hseen & Hsound).
  assert (Hperm := Array_sort_Permutation byCreatedAt (Loop.allTweets st)).
  split.
  - intros e Hin. rewrite Hperm in Hin.
    destruct (He e Hin) as [->%list_elem_of_singleton|?]; [by left|by right].
  - intros k page t Hk Hpage Ht. rewrite Hperm.
    destruct page as [[data|] includes meta]; simpl in Ht; [|set_solver].
    set (page := {| TwitterV2ListResponse.data := Some data;
                    TwitterV2ListResponse.includes := includes;
                    TwitterV2ListResponse.meta := meta |}) in *.
    assert (Tweet.id t ∈ Loop.seenIds st) as Hin.
    { pose (e := enrichTweet t (buildMaps includes).1 (buildMaps includes).2).
      change (Tweet.id t) with (EnrichedTweet.id e).
      apply (Hseen k page e Hk Hpage). unfold page. rewrite mergeTweetList_Some.
      apply list_elem_of_fmap. by exists t. }
    apply Hsound; [|done]. simpl. intros i ->%elem_of_singleton. by left.
Qed.

Lemma paginate_failed conversationId fields cap pages st rounds e :
  paginate conversationId fields cap pages st = (rounds, Failed e) →
  (1 ≤ length rounds)%nat ∧ pages !! (length rounds - 1)%nat = Some (Throw e).
Proof.
  revert st rounds. induction pages as [|[page|e'] pages IH]; intros st rounds; simpl;
    destruct (Loop.fetched st <? cap); try done.
  - destruct (breaks (absorbPage st page) page); [done|].
    destruct (paginate _ _ _ pages (absorbPage st page)) as [rounds' run] eqn:Hp.
    intros [= <- ->]. destruct (IH _ _ Hp) as [Hlen Hk]. simpl. split; [lia|].
    destruct rounds'; simpl in *; [lia|]. by rewrite Nat.sub_0_r in *.
  - intros [= <- <-]. simpl. split; [lia|done].
Qed.

(** A request the script answers with an error is the last one sent. *)
Lemma paginate_stops_at_error conversationId fields cap pages st rounds run k e :
  paginate conversationId fields cap pages st = (rounds, run) →
  (k < length rounds)%nat → pages !! k = Some (Throw e) →
  run = Failed e ∧ length rounds = S k.
Proof.
  revert st rounds k. induction pages as [|[page|e'] pages IH]; intros st rounds k; simpl;
    destruct (Loop.fetched st <? cap);
    try (intros [= <- <-]; simpl; intros; lia); try done.
  - destruct (breaks (absorbPage st page) page).
    + intros [= <- <-]. simpl. destruct k; [done|lia].
    + destruct (paginate _ _ _ pages (absorbPage st page)) as [rounds' run'] eqn:Hp.
      intros [= <- <-]. simpl. destruct k as [|k]; [done|]. simpl.
      intros Hk Hpage. destruct (IH _ _ k Hp) as [-> ->]; [lia|done|done].
  - intros [= <- <-]. simpl. destruct k as [|k]; [|lia].
    by intros _ [= ->].
Qed.

(** X9: a failed root request is raised without any search request; a
    thread that fails after that fails with the error of its last search
    request; and no search request follows one that failed. *)
Theorem buildThread_failure now tweetId maxResults fields pages :
  (∀ e, buildThread now tweetId maxResults fields (Throw e) pages = ([], Failed e))
  ∧ (∀ root rounds e,
       buildThread now tweetId maxResults fields (Return root) pages
       = (rounds, Failed e) →
       (1 ≤ length rounds)%nat
       ∧ pages !! (length rounds - 1)%nat = Some (Throw e))
  ∧ (∀ root rounds run k e,
       buildThread now tweetId maxResults fields (Return root) pages = (rounds, run) →
       (k < length rounds)%nat → pages !! k = Some (Throw e) →
       run = Failed e ∧ length rounds = S k).
Proof.
  split_and!; [done| |].
  - intros root rounds e. unfold buildThread.
    destruct (paginate _ _ _ pages _) as [rounds' [st|e'|]] eqn:Hp; intros [= <- <-].
    by apply paginate_failed in Hp.
  - intros root rounds run k e. unfold buildThread.
    destruct (paginate _ _ _ pages _) as [rounds' run'] eqn:Hp.
    intros Hrun Hk Hpage.
    assert (rounds' = rounds) as -> by (destruct run'; by injection Hrun).
    destruct (paginate_stops_at_error _ _ _ _ _ _ _ _ _ Hp Hk Hpage) as [-> Hlen].
    by injection Hrun as <-.
Qed.

End MoreThreadProperties.

Section StableSort.
Context {A : Type} (comparefn : A → A → option Z).

(** Elements of a class whose members never sort before one another keep
    their order among themselves. *)
Lemma stable_insert_filter_class (P : A → Prop) `{!∀ x, Decision (P x)} x l :
  (∀ y z, P y → P z → sorts_before comparefn y z = false) →
  filter P (stable_insert comparefn x l) = filter P (x :: l).
Proof.
  intros HP. induction l as [|y l IH]; simpl; [done|].
  destruct (sorts_before comparefn y x) eqn:Hyx; [|done].
  rewrite !filter_cons in *. destruct (decide (P x)) as [Hx|Hx].
  - destruct (decide (P y)) as [Hy|Hy]; [|done].
    by rewrite (HP y x Hy Hx) in Hyx.
  - destruct (decide (P y)); by rewrite IH.
Qed.

Lemma stableSort_filter_class (P : A → Prop) `{!∀ x, Decision (P x)} l :
  (∀ y z, P y → P z → sorts_before comparefn y z = false) →
  filter P (stableSort comparefn l) = filter P l.
Proof.
  intros HP. induction l as [|x l IH]; simpl; [done|].
  rewrite stable_insert_filter_class by done. rewrite !filter_cons.
  destruct (decide (P x)); by rewrite IH.
Qed.

End StableSort.

(** X10: when every accumulated item has a creation time, the items with
    the same creation time come back in the order in which they were
    accumulated. *)
Theorem buildThread_stable {rt : Runtime}
    now tweetId maxResults fields (root : TwitterV2Response.t Tweet.t) pages
    rounds thread st :
  buildThread now tweetId maxResults fields (Return root) pages = (rounds, Done thread) →
  paginate (conversationIdOf (TwitterV2Response.data root)) fields
           (Z.min maxResults MAX_THREAD_TWEETS) pages
           (initialLoop tweetId (mergeSingleTweet root)) = (rounds, Done st) →
  Forall (λ e, is_Some (createdAt e)) (Loop.allTweets st) →
  ∀ t, filter (λ e, createdAt e = Some t) (ThreadResult.tweets thread)
       = filter (λ e, createdAt e = Some t) (Loop.allTweets st).
Proof.
  intros (root' & st' & [= <-] & Hp & ->)%buildThread_Done Hp' Hall t.
  rewrite Hp in Hp'. injection Hp' as ->. simpl.
  rewrite sort_consistent by by apply byCreatedAt_consistent.
  apply stableSort_filter_class. intros y z Hy Hz.
  apply not_true_is_false. rewrite sorts_before_byCreatedAt.
  intros (ty & tz & Hy' & Hz' & Hlt). rewrite Hy in Hy'. rewrite Hz in Hz'.
  simplify_eq. lia.
Qed.

(** ** The facade *)

Lemma as_Tweet_mergeTweetList (response : TwitterV2ListResponse.t Tweet.t) :
  EnrichedTweet.as_Tweet <$> mergeTweetList response
  = default [] (TwitterV2ListResponse.data response).
Proof.
  destruct response as [[data|] includes meta]; [|done].
  rewrite mergeTweetList_Some. apply as_Tweet_enriched_list.
Qed.

(** X11: [getTimeline] sends the timeline request only after the lookup of
    the user succeeded, to the endpoint of the identifier that the lookup
    returned, asking for min(maxResults, 100) tweets; a failure of either
    request is raised as it is, the first without a second request; and
    the result holds the looked-up user and exactly the items of the
    timeline's [data], in order (none when [data] is absent). *)
Theorem getTimeline_sequence (username : string) (maxResults : Z)
    (userResponse : Try (TwitterV2Response.t User.t))
    (timeline : Try (TwitterV2ListResponse.t Tweet.t)) :
  let run := getTimeline username maxResults userResponse timeline in
  let lookup : Request := ("/users/by/username/" +:+ username, defaultUserParams) in
  (∀ e, userResponse = Throw e → run = ([lookup], Throw e))
  ∧ (∀ u, userResponse = Return u →
       ∃ params,
         run.1 = [lookup;
                  ("/users/" +:+ User.id (TwitterV2Response.data u) +:+ "/tweets",
                   params)]
         ∧ params !! "max_results" = Some (pretty (Z.min maxResults 100))
         ∧ Z.min maxResults 100 ≤ 100
         ∧ params !! "tweet.fields" = Some TWEET_FIELDS
         ∧ (∀ e, timeline = Throw e → run.2 = Throw e)
         ∧ (∀ t, timeline = Return t →
              ∃ result, run.2 = Return result
                ∧ TimelineResult.user result = TwitterV2Response.data u
                ∧ EnrichedTweet.as_Tweet <$> TimelineResult.tweets result
                  = default [] (TwitterV2ListResponse.data t))).
Proof.
  intros run lookup. unfold run, getTimeline. split.
  - by intros e ->.
  - intros u ->. eexists. split_and!.
    + by destruct timeline.
    + by rewrite lookup_insert_eq.
    + lia.
    + by rewrite lookup_insert_ne.
    + by intros e ->.
    + intros t ->. eexists. split_and!; [done|done|].
      apply as_Tweet_mergeTweetList.
Qed.

(** X12: [searchRecent] sends the query string as it is and asks for
    min(maxResults, 100) results; its result carries the query, exactly the
    items of [data] in order (none when [data] is absent), and the count
    that the response's metadata reports, which is 0 when the metadata is
    absent and is not the number of items returned. *)
Theorem searchRecent_result (query : string) (maxResults : Z)
    (response : TwitterV2ListResponse.t Tweet.t) :
  ∃ params result,
    searchRecent query maxResults (Return response)
    = ([("/tweets/search/recent", params)], Return result)
    ∧ params !! "query" = Some query
    ∧ params !! "max_results" = Some (pretty (Z.min maxResults 100))
    ∧ SearchResult.query result = query
    ∧ EnrichedTweet.as_Tweet <$> SearchResult.tweets result
      = default [] (TwitterV2ListResponse.data response)
    ∧ SearchResult.resultCount result
      = from_option TwitterMeta.result_count 0 (TwitterV2ListResponse.meta response).
Proof.
  eexists _, _. split_and!; [done| | |done| |].
  - by rewrite lookup_insert_ne, lookup_insert_eq.
  - by rewrite lookup_insert_eq.
  - apply as_Tweet_mergeTweetList.
  - simpl. unfold reportedCount. by destruct (TwitterV2ListResponse.meta response).
Qed.

(** X13: [getReplies] raises a failure of the fetch of the original item
    without sending the search, and raises a failure of the search without
    a result; when both succeed, the result holds the enriched original,
    exactly the items of the search's [data] in order, and the count that
    the metadata reports (0 when it is absent). *)
Theorem getReplies_result (tweetId : string) (maxResults : Z)
    (original : Try (TwitterV2Response.t Tweet.t))
    (response : Try (TwitterV2ListResponse.t Tweet.t)) :
  let run := getReplies tweetId maxResults original response in
  (∀ e, original = Throw e →
        run = ([("/tweets/" +:+ tweetId, defaultTweetParams)], Throw e))
  ∧ (∀ o e, original = Return o → response = Throw e →
            run.2 = Throw e ∧ length run.1 = 2%nat)
  ∧ (∀ o r, original = Return o → response = Return r →
       ∃ result, run.2 = Return result
         ∧ length run.1 = 2%nat
         ∧ RepliesResult.originalTweet result = mergeSingleTweet o
         ∧ EnrichedTweet.as_Tweet <$> RepliesResult.replies result
           = default [] (TwitterV2ListResponse.data r)
         ∧ RepliesResult.resultCount result
           = from_option TwitterMeta.result_count 0 (TwitterV2ListResponse.meta r)).
Proof.
  intros run. unfold run, getReplies. split_and!.
  - by intros e ->.
  - by intros o e -> ->.
  - intros o r -> ->. eexists. split_and!; [done|done|done| |].
    + apply as_Tweet_mergeTweetList.
    + simpl. by destruct (TwitterV2ListResponse.meta r).
Qed.

(** ** Markdown of a tweet *)

Lemma metricsParts_none (m : TweetPublicMetrics.t) :
  TweetPublicMetrics.like_count m ≤ 0 →
  TweetPublicMetrics.retweet_count m ≤ 0 →
  TweetPublicMetrics.reply_count m ≤ 0 →
  TweetPublicMetrics.quote_count m ≤ 0 →
  metricsParts m = [].
Proof.
  intros. unfold metricsParts.
  by rewrite !(proj2 (Z.ltb_ge _ _)) by lia.
Qed.

(** X14: counts that are not above zero are left out of the markdown of a
    tweet: an item whose four counts are all zero or less reads exactly
    like the same item without metrics; and an item without author,
    creation time and metrics reads as its text alone. *)
Theorem formatTweetMarkdown_without_metrics
    (toLocaleString : string → string) (tweet : EnrichedTweet.t)
    (m : TweetPublicMetrics.t) :
  EnrichedTweet.public_metrics tweet = Some m →
  TweetPublicMetrics.like_count m ≤ 0 →
  TweetPublicMetrics.retweet_count m ≤ 0 →
  TweetPublicMetrics.reply_count m ≤ 0 →
  TweetPublicMetrics.quote_count m ≤ 0 →
  formatTweetMarkdown toLocaleString tweet
  = formatTweetMarkdown toLocaleString
      {| EnrichedTweet.id := EnrichedTweet.id tweet;
         EnrichedTweet.text := EnrichedTweet.text tweet;
         EnrichedTweet.author_id := EnrichedTweet.author_id tweet;
         EnrichedTweet.conversation_id := EnrichedTweet.conversation_id tweet;
         EnrichedTweet.created_at := EnrichedTweet.created_at tweet;
         EnrichedTweet.in_reply_to_user_id := EnrichedTweet.in_reply_to_user_id tweet;
         EnrichedTweet.referenced_tweets := EnrichedTweet.referenced_tweets tweet;
         EnrichedTweet.public_metrics := None;
         EnrichedTweet.author := EnrichedTweet.author tweet;
         EnrichedTweet.referenced_tweet_data :=
           EnrichedTweet.referenced_tweet_data tweet |}
  ∧ (EnrichedTweet.author tweet = None →
     truthy (EnrichedTweet.created_at tweet) = false →
     formatTweetMarkdown toLocaleString tweet = EnrichedTweet.text tweet).
Proof.
  intros Hm H1 H2 H3 H4. unfold formatTweetMarkdown, tweetMarkdownLines. simpl.
  rewrite Hm, (metricsParts_none m) by done. split; [done|].
  intros -> Hc. destruct (EnrichedTweet.created_at tweet) as [c|]; [|done].
  simpl in Hc |- *. by rewrite Hc.
Qed.

(** ** The further properties on sample inputs *)

Lemma error_detail_not_an_object_witness :
  error_detail (rt := literalRuntime) "null" = "null".
Proof.
  apply (error_detail_not_an_object (rt := literalRuntime) "null" JNull); done.
Defined.


Lemma buildThread_search_requests_witness :
  let second := absorbPage sampleStart pageOne in
  searchParams "tweet_root" sampleFields 50 second !! "max_results" = Some "49"
  ∧ searchParams "tweet_root" sampleFields 50 second !! "next_token" = Some "page2".
Proof.
  intros second.
  destruct (buildThread_search_requests (rt := sampleRuntime)
              0 "tweet_root" 50 sampleFields (rootEnvelope sampleRoot)
              [Return pageOne; Return pageTwo] 1 second
              (searchParams "tweet_root" sampleFields 50 second) eq_refl)
    as (Hsize & _ & _ & Htoken & _).
  split; [exact Hsize|].
  exact (proj1 (Htoken 0%nat pageOne eq_refl eq_refl)).
Defined.

Lemma buildThread_size_witness :
  ∃ page, [Return pageOne; Return pageTwo] !! 1%nat = Some (Return page)
          ∧ (1 ≤ 2)%nat
          ∧ 0 ≤ 3 - 1
              < Z.min 50 200
                + Z.of_nat (length (default [] (TwitterV2ListResponse.data page))).
Proof.
  refine (proj2 (buildThread_size (rt := sampleRuntime)
            0 "tweet_root" 50 sampleFields (rootEnvelope sampleRoot)
            [Return pageOne; Return pageTwo]
            [sampleRound sampleStart; sampleRound (absorbPage sampleStart pageOne)]
            {| ThreadResult.tweets :=
                 [enriched sampleRoot;
                  enriched (reply "r1" "Reply 1" (Some "1970-01-01T00:00:00.003Z"));
                  enriched (reply "r2" "Reply 2" (Some "1970-01-01T00:00:00.005Z"))];
               ThreadResult.ageWarning := None |}
            eq_refl) _).
  reflexivity.
Defined.

Lemma buildThread_items_witness :
  "r1" = "tweet_root"
  ∨ "r1" ∈ EnrichedTweet.id
           <$> [enriched sampleRoot;
                enriched (reply "r1" "Reply 1" (Some "1970-01-01T00:00:00.003Z"));
                enriched (reply "r2" "Reply 2" (Some "1970-01-01T00:00:00.005Z"))].
Proof.
  refine (proj2 (buildThread_items (rt := sampleRuntime)
            0 "tweet_root" 50 sampleFields (rootEnvelope sampleRoot)
            [Return pageOne; Return pageTwo]
            [sampleRound sampleStart; sampleRound (absorbPage sampleStart pageOne)]
            {| ThreadResult.tweets :=
                 [enriched sampleRoot;
                  enriched (reply "r1" "Reply 1" (Some "1970-01-01T00:00:00.003Z"));
                  enriched (reply "r2" "Reply 2" (Some "1970-01-01T00:00:00.005Z"))];
               ThreadResult.ageWarning := None |}
            eq_refl)
            0%nat pageOne
            (reply "r1" "Reply 1" (Some "1970-01-01T00:00:00.003Z")) _ eq_refl _).
  - simpl. lia.
  - simpl. apply list_elem_of_here.
Defined.

Lemma buildThread_stable_witness :
  filter (λ e, createdAt (rt := sampleRuntime) e = Some 3)
    [enriched sampleRoot;
     enriched (reply "r1" "Reply 1" (Some "1970-01-01T00:00:00.003Z"));
     enriched (reply "r2" "Reply 2" (Some "1970-01-01T00:00:00.003Z"))]
  = filter (λ e, createdAt (rt := sampleRuntime) e = Some 3)
      (Loop.allTweets (absorbPage sampleStart tiedPage)).
Proof.
  refine (buildThread_stable (rt := sampleRuntime)
            0 "tweet_root" 50 sampleFields (rootEnvelope sampleRoot)
            [Return tiedPage]
            [sampleRound sampleStart]
            {| ThreadResult.tweets :=
                 [enriched sampleRoot;
                  enriched (reply "r1" "Reply 1" (Some "1970-01-01T00:00:00.003Z"));
                  enriched (reply "r2" "Reply 2" (Some "1970-01-01T00:00:00.003Z"))];
               ThreadResult.ageWarning := None |}
            (absorbPage sampleStart tiedPage) eq_refl eq_refl _ 3).
  repeat constructor; by eexists.
Defined.

Lemma formatTweetMarkdown_without_metrics_witness :
  formatTweetMarkdown (λ s, s) quietTweet = "No metrics".
Proof.
  refine (proj2 (formatTweetMarkdown_without_metrics (λ s, s) quietTweet _
                   eq_refl _ _ _ _) eq_refl eq_refl); simpl; lia.
Defined.
